(** * CPU-profile call-stack analysis: a model of [scripts/analyze-cpu-profile.js]

    The analyser reads a V8 [.cpuprofile] (a flat node table, a sample
    sequence and the time deltas), indexes the call graph, walks up from
    every sample to rebuild its call stack, groups the stacks by a
    signature string and prints a ranked report.  The functions below are
    the script's functions, one for one, over the following data:

    - node ids, sample ids and array indices are JavaScript numbers; they
      are integers in a profile and are modelled by [Z] (a negative or an
      out-of-range id is a legal value of that type);
    - an absent field and its falsy default coincide in the script
      ([callFrame.url || ''], [node.children || []], [lineNumber || '']),
      so a missing string is the empty string, a missing number is [0] and
      a missing array is [[]];
    - [parentMap], [childMap] are JavaScript [Map]s that are only read with
      [get]/[has]: they are [gmap]s; the [Set]s of visited ids are [gset]s;
    - [stackMap] is a [Map] whose insertion order is observable through
      [Array.from(stackMap.values())]: it is an association list;
    - the engine's call stack is finite: the functions that run the
      recursive descendant search take [stackLimit], the number of nested
      activations of it that the stack has room for, and return [None]
      where the script throws [RangeError]. *)

From Stdlib Require Import ZArith QArith Lia Ascii String.
From stdpp Require Import base gmap strings list fin_maps pretty sorting.

Set Warnings "-clear-no-such-hyp".

Local Open Scope string_scope.
Local Open Scope list_scope.
Local Open Scope Z_scope.

(** ** Profile model *)

Record CallFrame := {
  functionName : string;
  url : string;
  lineNumber : Z;
  columnNumber : Z
}.

Record Node := {
  id : Z;
  callFrame : CallFrame;
  hitCount : Z;
  children : list Z
}.

Record Profile := {
  nodes : list Node;
  samples : list Z;
  timeDeltas : list Z
}.

(** One step of an ancestor walk, as pushed by [getCallStackUp].  The
    fields [line] and [column] hold [0] where the script holds [''], both
    being falsy and printed the same way. *)
Record Frame := {
  f_index : Z;
  f_function : string;
  f_url : string;
  f_line : Z;
  f_column : Z
}.

Global Instance Frame_eq_dec : EqDecision Frame.
Proof. solve_decision. Defined.

(** ** Call-graph indexer: [buildNodeTree] *)

(** The body of the inner loop for one child id of node [i]:
    [parentMap.get(childIndex).push(i)] and [childMap.get(i).push(childIndex)],
    each list being created empty on first use. *)
Definition addEdge (i : Z) (st : gmap Z (list Z) * gmap Z (list Z)) (childIndex : Z)
  : gmap Z (list Z) * gmap Z (list Z) :=
  let '(parentMap, childMap) := st in
  (<[childIndex := default [] (parentMap !! childIndex) ++ [i]]> parentMap,
   <[i := default [] (childMap !! i) ++ [childIndex]]> childMap).

(** The outer loop [for (let i = 0; i < nodes.length; i++)], started at
    index [i] on the remaining nodes. *)
Fixpoint buildNodeTreeFrom (i : nat) (ns : list Node)
    (st : gmap Z (list Z) * gmap Z (list Z)) : gmap Z (list Z) * gmap Z (list Z) :=
  match ns with
  | [] => st
  | node :: ns' =>
      buildNodeTreeFrom (S i) ns' (foldl (addEdge (Z.of_nat i)) st (children node))
  end.

(** [buildNodeTree nodes] returns [(parentMap, childMap)]. *)
Definition buildNodeTree (ns : list Node) : gmap Z (list Z) * gmap Z (list Z) :=
  buildNodeTreeFrom 0 ns (∅, ∅).

(** ** Ancestor walker: [getCallStackUp] *)

Definition orElse (s d : string) : string := if decide (s = "") then d else s.

(** The frame pushed for node [node] found at index [current]. *)
Definition mkFrame (current : Z) (node : Node) : Frame :=
  {| f_index := current;
     f_function := orElse (functionName (callFrame node)) "(anonymous)";
     f_url := url (callFrame node);
     f_line := lineNumber (callFrame node);
     f_column := columnNumber (callFrame node) |}.

(** [stack.push(...)] under the bounds test [current < nodes.length].  For
    [0 <= current] the test holds exactly when the array read succeeds. *)
Definition pushFrame (ns : list Node) (current : Z) (stack : list Frame) : list Frame :=
  if current <? Z.of_nat (length ns) then
    match ns !! Z.to_nat current with
    | Some node => stack ++ [mkFrame current node]
    | None => stack
    end
  else stack.

(** The [while] loop.  [remaining] is [maxDepth - depth]: the loop runs
    while [depth < maxDepth], and [depth] grows by one per iteration.  The
    test [current !== undefined] is always true of an integer. *)
Fixpoint walkUp (ns : list Node) (parentMap : gmap Z (list Z)) (remaining : nat)
    (current : Z) (visited : gset Z) (stack : list Frame) : list Frame :=
  match remaining with
  | O => stack
  | S remaining' =>
      if decide (0 ≤ current ∧ current ∉ visited) then
        let visited' := {[current]} ∪ visited in
        let stack' := pushFrame ns current stack in
        match parentMap !! current with
        | Some (parent :: _) => walkUp ns parentMap remaining' parent visited' stack'
        | _ => stack'
        end
      else stack
  end.

Definition defaultMaxDepth : nat := 20.

Definition getCallStackUp (ns : list Node) (parentMap : gmap Z (list Z))
    (nodeIndex : Z) (maxDepth : nat) : list Frame :=
  walkUp ns parentMap maxDepth nodeIndex ∅ [].

(** ** Descendant collector: [collectDescendants] / [findDescendants] *)

(** The [for (const child of children)] loop of the recursive closure,
    with [visit] standing for the recursive call.  The set [descendants]
    is the closure's mutable [Set], threaded through. *)
Fixpoint forChildren (visit : Z → gset Z → option (gset Z)) (cs : list Z)
    (descendants : gset Z) : option (gset Z) :=
  match cs with
  | [] => Some descendants
  | child :: cs' =>
      if decide (child ∈ descendants) then forChildren visit cs' descendants
      else
        match visit child ({[child]} ∪ descendants) with
        | Some descendants' => forChildren visit cs' descendants'
        | None => None
        end
  end.

(** [collectDescendants(nodeIndex)] of [analyzeChildren].  The closure
    recurses natively, one activation inside the other along a path of
    child edges, and the engine's call stack has room for finitely many:
    [depth] is the number of nested activations there is still room for,
    and [None] is the [RangeError] thrown when an activation is needed and
    none is left. *)
Fixpoint collectDescendants (depth : nat) (childMap : gmap Z (list Z))
    (nodeIndex : Z) (descendants : gset Z) : option (gset Z) :=
  match depth with
  | O => None
  | S depth' =>
      forChildren (collectDescendants depth' childMap)
        (default [] (childMap !! nodeIndex)) descendants
  end.

(** Every id that occurs in some children list of the index. *)
Definition childIds (childMap : gmap Z (list Z)) : gset Z :=
  list_to_set (concat (map_to_list childMap).*2).

(** A nesting that the search never exceeds: one more than the number of
    distinct child ids. *)
Definition recursionBound (childMap : gmap Z (list Z)) : nat :=
  S (size (childIds childMap)).

(** The descendant set computed at the head of [analyzeChildren]:
    [descendants = new Set()] then [collectDescendants(targetNodeIndex)],
    on a call stack with room for [stackLimit] nested activations. *)
Definition analyzeChildrenDescendants (stackLimit : nat)
    (childMap : gmap Z (list Z)) (targetNodeIndex : Z) : option (gset Z) :=
  collectDescendants stackLimit childMap targetNodeIndex ∅.

(** [findDescendants] of [buildCallStack] has the same body as
    [collectDescendants]; its set starts as [new Set([targetNodeIndex])]. *)
Definition findDescendants (stackLimit : nat) (childMap : gmap Z (list Z))
    (targetNodeIndex : Z) : option (gset Z) :=
  collectDescendants stackLimit childMap targetNodeIndex {[targetNodeIndex]}.

(** ** Caller analysis: [buildCallStack] *)

Record CallStack := {
  cs_stack : list Frame;
  cs_timeDelta : Z;
  cs_sampleIndex : nat
}.

(** The predicate [frame => frame.index === targetNodeIndex]. *)
Definition isTarget (targetNodeIndex : Z) (frame : Frame) : bool :=
  bool_decide (f_index frame = targetNodeIndex).

(** [Array.prototype.findIndex]; [None] stands for [-1]. *)
Fixpoint findIndex {A} (p : A → bool) (l : list A) : option nat :=
  match l with
  | [] => None
  | x :: l' => if p x then Some O else S <$> findIndex p l'
  end.

(** The body of the sample loop for sample [i]: [None] is [continue] (or
    the failed [relevantStack.length > 0] test), [Some c] the record pushed
    on [callStacks]. *)
Definition sampleCallStack (ns : list Node) (parentMap : gmap Z (list Z))
    (targetDescendants : gset Z) (targetNodeIndex : Z) (tds : list Z)
    (i : nat) (sampleNodeIndex : Z) : option CallStack :=
  if bool_decide (sampleNodeIndex ∉ targetDescendants)
     && negb (existsb (isTarget targetNodeIndex)
                (getCallStackUp ns parentMap sampleNodeIndex defaultMaxDepth))
  then None
  else
    let fullStack := getCallStackUp ns parentMap sampleNodeIndex defaultMaxDepth in
    match findIndex (isTarget targetNodeIndex) fullStack with
    | None => None
    | Some targetIndex =>
        let relevantStack := rev (take (S targetIndex) fullStack) in
        if (0 <? length relevantStack)%nat then
          Some {| cs_stack := relevantStack;
                  cs_timeDelta := default 0 (tds !! i);
                  cs_sampleIndex := i |}
        else None
    end.

(** The loop [for (let i = 0; i < samples.length; i++)] from index [i]. *)
Fixpoint processSamples (ns : list Node) (parentMap : gmap Z (list Z))
    (targetDescendants : gset Z) (targetNodeIndex : Z) (tds : list Z)
    (i : nat) (ss : list Z) (callStacks : list CallStack) : list CallStack :=
  match ss with
  | [] => callStacks
  | sampleNodeIndex :: ss' =>
      processSamples ns parentMap targetDescendants targetNodeIndex tds (S i) ss'
        (match sampleCallStack ns parentMap targetDescendants targetNodeIndex tds
                 i sampleNodeIndex with
         | Some c => callStacks ++ [c]
         | None => callStacks
         end)
  end.

(** [buildCallStack(profile, targetNodeIndex)] on a call stack with room
    for [stackLimit] nested activations of [findDescendants].  [None] is
    the [RangeError] of the descendant search, which nothing catches. *)
Definition buildCallStack (stackLimit : nat) (profile : Profile)
    (targetNodeIndex : Z) : option (list CallStack) :=
  let '(parentMap, childMap) := buildNodeTree (nodes profile) in
  match findDescendants stackLimit childMap targetNodeIndex with
  | None => None
  | Some targetDescendants =>
      Some (processSamples (nodes profile) parentMap targetDescendants
              targetNodeIndex (timeDeltas profile) O (samples profile) [])
  end.

(** ** Stack aggregator: [aggregateCallStacks] *)

Record Entry := {
  e_stack : list Frame;
  e_count : Z;
  e_totalTime : Z;
  e_samples : list Z
}.

(** [url.split('/').pop()]: the text after the last slash. *)
Fixpoint lastSegment (acc s : string) : string :=
  match s with
  | EmptyString => acc
  | String c s' =>
      if Ascii.eqb c "/"%char then lastSegment "" s'
      else lastSegment (acc +:+ String c "") s'
  end.

Definition urlShort (u : string) : string :=
  if decide (u = "") then "(native)" else lastSegment "" u.

(** [f.line || '?'] inside the template string. *)
Definition lineText (line : Z) : string :=
  if decide (line = 0) then "?" else pretty line.

Definition frameLabel (f : Frame) : string :=
  f_function f +:+ "@" +:+ urlShort (f_url f) +:+ ":" +:+ lineText (f_line f).

(** [Array.prototype.join]. *)
Fixpoint join (sep : string) (l : list string) : string :=
  match l with
  | [] => ""
  | [x] => x
  | x :: l' => x +:+ sep +:+ join sep l'
  end.

Definition stackKey (callers : list Frame) : string :=
  join " -> " (map frameLabel callers).

(** [entry.count++; entry.totalTime += timeDelta; entry.samples.push(timeDelta)]. *)
Definition bump (timeDelta : Z) (entry : Entry) : Entry :=
  {| e_stack := e_stack entry;
     e_count := e_count entry + 1;
     e_totalTime := e_totalTime entry + timeDelta;
     e_samples := e_samples entry ++ [timeDelta] |}.

Definition freshEntry (callers : list Frame) : Entry :=
  {| e_stack := callers; e_count := 0; e_totalTime := 0; e_samples := [] |}.

(** The [has]/[set]/[get] sequence on [stackMap]: the entry stored under
    [key] is updated where it stands, a new key goes to the end. *)
Fixpoint record (key : string) (callers : list Frame) (timeDelta : Z)
    (stackMap : list (string * Entry)) : list (string * Entry) :=
  match stackMap with
  | [] => [(key, bump timeDelta (freshEntry callers))]
  | (k, entry) :: rest =>
      if decide (k = key) then (k, bump timeDelta entry) :: rest
      else (k, entry) :: record key callers timeDelta rest
  end.

(** [stack.slice(0, -1)]. *)
Definition dropLast {A} (l : list A) : list A := take (length l - 1)%nat l.

(** One iteration of [for (const { stack, timeDelta } of callStacks)]. *)
Definition aggregateStep (stackMap : list (string * Entry)) (c : CallStack)
  : list (string * Entry) :=
  let callers := dropLast (cs_stack c) in
  record (stackKey callers) callers (cs_timeDelta c) stackMap.

(** The comparator [(a, b) => b.count - a.count || b.totalTime - a.totalTime]. *)
Definition compareEntries (a b : Entry) : Z :=
  if decide (e_count b - e_count a = 0) then e_totalTime b - e_totalTime a
  else e_count b - e_count a.

(** [Array.prototype.sort] is a stable sort; on a comparator that is a
    total preorder its result is the one of stable insertion. *)
Fixpoint insertEntry (x : Entry) (l : list Entry) : list Entry :=
  match l with
  | [] => [x]
  | y :: l' => if decide (0 < compareEntries x y) then y :: insertEntry x l' else x :: l
  end.

Definition sortEntries (l : list Entry) : list Entry := foldr insertEntry [] l.

Definition aggregateCallStacks (callStacks : list CallStack) : list Entry :=
  sortEntries (foldl aggregateStep [] callStacks).*2.

(** ** Report builder: the numbers of [formatStackEntry] *)

(** What [formatStackEntry] prints for one entry, before [toFixed(2)]
    rounds the quotients for display; the quotients are exact rationals
    here. *)
Record Row := {
  r_position : nat;
  r_count : Z;
  r_percentage : Q;
  r_stack : list Frame
}.

Definition formatStackEntry (entry : Entry) (index : nat) (maxCount : Z) : Row :=
  {| r_position := S index;
     r_count := e_count entry;
     r_percentage := (inject_Z (e_count entry) / inject_Z maxCount * 100)%Q;
     r_stack := e_stack entry |}.

(** [aggregated[0]?.count || 1]. *)
Definition maxCountOf (aggregated : list Entry) : Z :=
  match aggregated with
  | e :: _ => if decide (e_count e = 0) then 1 else e_count e
  | [] => 1
  end.

(** The caller part of [analyzeProfile] for one target node: the rows
    printed by the loop [for (let i = 0; i < Math.min(topN, aggregated.length); i++)],
    none when [callStacks] is empty; [None] when [buildCallStack] throws.
    [topN] is the bound as the loop sees it: a negative or [NaN] [topN]
    runs it zero times, as [0] does. *)
Definition callerReport (stackLimit : nat) (profile : Profile) (index : Z)
    (topN : nat) : option (list Row) :=
  match buildCallStack stackLimit profile index with
  | None => None
  | Some callStacks =>
      if decide (length callStacks = O) then Some []
      else
        let aggregated := aggregateCallStacks callStacks in
        let maxCount := maxCountOf aggregated in
        Some (imap (λ i entry, formatStackEntry entry i maxCount)
                (take (min topN (length aggregated)) aggregated))
  end.

(** ** The other functions of the script *)

(** [Array.prototype.sort] with comparator [cmp], for the sorts on a
    single numeric field: stable insertion, as [sortEntries] above. *)
Fixpoint insertBy {A} (cmp : A → A → Z) (x : A) (l : list A) : list A :=
  match l with
  | [] => [x]
  | y :: l' => if decide (0 < cmp x y) then y :: insertBy cmp x l' else x :: l
  end.

Definition sortBy {A} (cmp : A → A → Z) (l : list A) : list A :=
  foldr (insertBy cmp) [] l.

(** [String.prototype.includes]. *)
Fixpoint startsWith (s sub : string) : bool :=
  match sub, s with
  | EmptyString, _ => true
  | String c sub', String d s' => Ascii.eqb c d && startsWith s' sub'
  | String _ _, EmptyString => false
  end.

Fixpoint includes (s sub : string) : bool :=
  startsWith s sub ||
  match s with
  | EmptyString => false
  | String _ s' => includes s' sub
  end.

(** *** [findTargetNodes] *)

Record TargetNode := {
  tn_index : Z;
  tn_node : Node;
  tn_callFrame : CallFrame;
  tn_hitCount : Z
}.

(** The test [matchesFunction && matchesFile && node.hitCount > 0].  A
    filter that is [null] or [''] is falsy, hence absent; both are the
    empty string here. *)
Definition matchesTarget (functionName0 filePath : string) (node : Node) : bool :=
  let nodeFunction := functionName (callFrame node) in
  let nodeUrl := url (callFrame node) in
  let matchesFunction :=
    bool_decide (functionName0 = "")
    || bool_decide (nodeFunction = functionName0)
    || includes nodeFunction functionName0 in
  let matchesFile := bool_decide (filePath = "") || includes nodeUrl filePath in
  matchesFunction && matchesFile && bool_decide (0 < hitCount node).

Fixpoint findTargetNodesFrom (functionName0 filePath : string) (i : nat)
    (ns : list Node) (targetNodes : list TargetNode) : list TargetNode :=
  match ns with
  | [] => targetNodes
  | node :: ns' =>
      findTargetNodesFrom functionName0 filePath (S i) ns'
        (if matchesTarget functionName0 filePath node
         then targetNodes ++ [{| tn_index := Z.of_nat i; tn_node := node;
                                 tn_callFrame := callFrame node;
                                 tn_hitCount := hitCount node |}]
         else targetNodes)
  end.

Definition findTargetNodes (profile : Profile) (functionName0 filePath : string)
  : list TargetNode :=
  sortBy (λ a b, tn_hitCount b - tn_hitCount a)
    (findTargetNodesFrom functionName0 filePath 0 (nodes profile) []).

(** *** [analyzeChildren] *)

Record ChildRow := {
  c_index : Z;
  c_function : string;
  c_url : string;
  c_line : Z;
  c_hitCount : Z;
  c_sampleCount : Z
}.

(** A call either returns or throws a [TypeError] (on reading a property
    of [undefined]). *)
Inductive Outcome (A : Type) :=
  | Returned (a : A)
  | Threw.
Arguments Returned {A} a.
Arguments Threw {A}.

(** [descendantCounts.set(sampleNodeIndex, count + 1)] with
    [count = descendantCounts.get(sampleNodeIndex) || 0]: a key keeps the
    place of its first insertion. *)
Fixpoint countSample (sampleNodeIndex : Z) (descendantCounts : list (Z * Z))
  : list (Z * Z) :=
  match descendantCounts with
  | [] => [(sampleNodeIndex, 1)]
  | (k, n) :: rest =>
      if decide (k = sampleNodeIndex) then (k, n + 1) :: rest
      else (k, n) :: countSample sampleNodeIndex rest
  end.

(** The loop "Count samples in descendants". *)
Definition countDescendantSamples (descendants : gset Z) (ss : list Z)
  : list (Z * Z) :=
  foldl (λ descendantCounts sampleNodeIndex,
           if decide (sampleNodeIndex ∈ descendants)
           then countSample sampleNodeIndex descendantCounts
           else descendantCounts)
        [] ss.

(** [nodes[nodeIndex]]: [undefined] outside the table. *)
Definition nodeAt (ns : list Node) (nodeIndex : Z) : option Node :=
  if decide (0 ≤ nodeIndex) then ns !! Z.to_nat nodeIndex else None.

(** The callback of [.map(([nodeIndex, count]) => ...)]; reading
    [node.callFrame] of an [undefined] node throws. *)
Definition childRow (ns : list Node) (entry : Z * Z) : option ChildRow :=
  match nodeAt ns entry.1 with
  | None => None
  | Some node =>
      Some {| c_index := entry.1;
              c_function := orElse (functionName (callFrame node)) "(anonymous)";
              c_url := url (callFrame node);
              c_line := lineNumber (callFrame node);
              c_hitCount := hitCount node;
              c_sampleCount := entry.2 |}
  end.

(** [l.slice(0, topN)] for the [topN] that [parseArgs] hands over, an
    integer or [NaN] ([None]): [NaN] counts as 0, a negative [topN] counts
    from the end ([max(l.length + topN, 0)]), a [topN] beyond the length
    keeps everything. *)
Definition sliceEnd (topN : option Z) (len : nat) : nat :=
  match topN with
  | None => O
  | Some n => if decide (n < 0) then Z.to_nat (Z.of_nat len + n) else Z.to_nat n
  end.

Definition sliceTo {A} (topN : option Z) (l : list A) : list A :=
  take (sliceEnd topN (length l)) l.

(** The part of [analyzeChildren] after the descendant search. *)
Definition topDescendants (ns : list Node) (ss : list Z) (descendants : gset Z)
    (topN : option Z) : Outcome (list ChildRow) :=
  match mapM (childRow ns) (countDescendantSamples descendants ss) with
  | None => Threw
  | Some rows =>
      Returned (sliceTo topN (sortBy (λ a b, c_sampleCount b - c_sampleCount a) rows))
  end.

(** [analyzeChildren(profile, targetNodeIndex, topN)] on a call stack
    with room for [stackLimit] nested activations of
    [collectDescendants]: [None] is the [RangeError] of the descendant
    search, [Some Threw] the [TypeError] of the row mapping. *)
Definition analyzeChildren (stackLimit : nat) (profile : Profile)
    (targetNodeIndex : Z) (topN : option Z) : option (Outcome (list ChildRow)) :=
  match analyzeChildrenDescendants stackLimit (buildNodeTree (nodes profile)).2
          targetNodeIndex with
  | None => None
  | Some descendants =>
      Some (topDescendants (nodes profile) (samples profile) descendants topN)
  end.

(** *** The fallback of [main]: top functions by hit count *)

Record TopFunction := {
  tf_index : Z;
  tf_callFrame : CallFrame;
  tf_hitCount : Z
}.

Definition topFunctions (profile : Profile) : list TopFunction :=
  take 10
    (sortBy (λ a b, tf_hitCount b - tf_hitCount a)
       (filter (λ n, 0 < tf_hitCount n)
          (imap (λ i node, {| tf_index := Z.of_nat i;
                              tf_callFrame := callFrame node;
                              tf_hitCount := hitCount node |})
                (nodes profile)))).

(** *** The summary of [analyzeProfile] *)

(** [aggregated.reduce((sum, e) => sum + e.totalTime, 0)]. *)
Definition summaryTotalTime (aggregated : list Entry) : Z :=
  foldl (λ sum e, sum + e_totalTime e) 0 aggregated.

(** [aggregated.reduce((sum, e) => sum + e.count, 0)]. *)
Definition summaryTotalSamples (aggregated : list Entry) : Z :=
  foldl (λ sum e, sum + e_count e) 0 aggregated.

(** *** [parseArgs] *)

Record Options := {
  o_function : option string;
  o_file : option string;
  o_top : option Z
}.

(** [process.exit(code)], or the value returned. *)
Inductive Parsed :=
  | Exit (code : Z)
  | Args (profileFile : string) (options : Options).

Section ParseArgs.

(** [parseInt(text, 10)], a built-in; [None] is [NaN]. *)
Variable parseInt : string → option Z.

(** The loop [for (let i = 1; i < args.length; i++)] on the arguments
    from position [i] on; the left result is the code of
    [process.exit].  [args[i + 1]] is truthy when it exists and is not the
    empty string; a flag that takes it skips it with [i++]. *)
Fixpoint parseFlags (rest : list string) (options : Options) : Z + Options :=
  match rest with
  | [] => inr options
  | arg :: rest' =>
      match rest' with
      | value :: rest'' =>
          if decide (arg = "--function" ∧ value ≠ "") then
            parseFlags rest'' {| o_function := Some value;
                                 o_file := o_file options;
                                 o_top := o_top options |}
          else if decide (arg = "--file" ∧ value ≠ "") then
            parseFlags rest'' {| o_function := o_function options;
                                 o_file := Some value;
                                 o_top := o_top options |}
          else if decide (arg = "--top" ∧ value ≠ "") then
            parseFlags rest'' {| o_function := o_function options;
                                 o_file := o_file options;
                                 o_top := parseInt value |}
          else if decide (arg = "--help" ∨ arg = "-h") then inl 0
          else parseFlags rest' options
      | [] =>
          if decide (arg = "--help" ∨ arg = "-h") then inl 0 else inr options
      end
  end.

Definition defaultOptions : Options :=
  {| o_function := None; o_file := None; o_top := Some 20 |}.

(** [parseArgs()] on [args = process.argv.slice(2)].  [args[0]] is falsy
    when it is absent or the empty string. *)
Definition parseArgs (args : list string) : Parsed :=
  let profileFile := match args with a :: _ => a | [] => "" end in
  match parseFlags (drop 1 args) defaultOptions with
  | inl code => Exit code
  | inr options =>
      if decide (profileFile = "") then Exit 1 else Args profileFile options
  end.

End ParseArgs.

(** ** Vocabulary of the statements *)

(** The edges of the node table: node number [i] lists [c] among its
    children. *)
Definition nodeEdge (ns : list Node) (i c : Z) : Prop :=
  ∃ k node, i = Z.of_nat k ∧ ns !! k = Some node ∧ c ∈ children node.

(** The edges held by the two maps of the index. *)
Definition childEdge (childMap : gmap Z (list Z)) (i c : Z) : Prop :=
  ∃ cs, childMap !! i = Some cs ∧ c ∈ cs.

Definition parentEdge (parentMap : gmap Z (list Z)) (c i : Z) : Prop :=
  ∃ ps, parentMap !! c = Some ps ∧ i ∈ ps.

(** [parents[0]] when [parents && parents.length > 0]. *)
Definition firstParent (parentMap : gmap Z (list Z)) (c : Z) : option Z :=
  match parentMap !! c with
  | Some (parent :: _) => Some parent
  | _ => None
  end.

(** A list of ids that starts at [c] and steps from each id to its first
    parent. *)
Inductive chainFrom (parentMap : gmap Z (list Z)) : Z → list Z → Prop :=
  | chain_nil c : chainFrom parentMap c []
  | chain_one c : chainFrom parentMap c [c]
  | chain_step c p path :
      firstParent parentMap c = Some p →
      chainFrom parentMap p path →
      chainFrom parentMap c (c :: path).

(** The frame of id [c], if [c] is an index of the node table. *)
Definition frameAt (ns : list Node) (c : Z) : option Frame :=
  if decide (0 ≤ c < Z.of_nat (length ns)) then mkFrame c <$> ns !! Z.to_nat c
  else None.

(** The ids on which the loop body of [getCallStackUp] runs, in order. *)
Fixpoint walkPath (parentMap : gmap Z (list Z)) (remaining : nat)
    (current : Z) (visited : gset Z) : list Z :=
  match remaining with
  | O => []
  | S remaining' =>
      if decide (0 ≤ current ∧ current ∉ visited) then
        current ::
        match parentMap !! current with
        | Some (parent :: _) =>
            walkPath parentMap remaining' parent ({[current]} ∪ visited)
        | _ => []
        end
      else []
  end.

(** Why the loop of [getCallStackUp] ends: the conjuncts of its condition
    in the order JavaScript tests them, and the [break]. *)
Inductive WalkEnd := EndInvalid | EndCeiling | EndCycle | EndRoot.

Fixpoint walkEnd (parentMap : gmap Z (list Z)) (remaining : nat)
    (current : Z) (visited : gset Z) : WalkEnd :=
  if decide (current < 0) then EndInvalid
  else
    match remaining with
    | O => EndCeiling
    | S remaining' =>
        if decide (current ∈ visited) then EndCycle
        else
          match parentMap !! current with
          | Some (parent :: _) =>
              walkEnd parentMap remaining' parent ({[current]} ∪ visited)
          | _ => EndRoot
          end
    end.

Definition sumZ (l : list Z) : Z := foldr Z.add 0 l.

Definition sumCounts (entries : list Entry) : Z := sumZ (e_count <$> entries).

(** The bookkeeping invariant of an aggregated entry. *)
Definition entryOk (e : Entry) : Prop :=
  e_count e = Z.of_nat (length (e_samples e)) ∧
  e_totalTime e = sumZ (e_samples e) ∧
  1 ≤ e_count e.

(** The sample positions whose rebuilt ancestor chain holds the target. *)
Definition chainHolds (ns : list Node) (parentMap : gmap Z (list Z))
    (targetNodeIndex sampleNodeIndex : Z) : Prop :=
  targetNodeIndex ∈ f_index <$> getCallStackUp ns parentMap sampleNodeIndex defaultMaxDepth.

Global Instance chainHolds_dec ns parentMap t s : Decision (chainHolds ns parentMap t s).
Proof. unfold chainHolds. apply _. Defined.

Fixpoint holdingPositions (ns : list Node) (parentMap : gmap Z (list Z))
    (targetNodeIndex : Z) (i : nat) (ss : list Z) : list nat :=
  match ss with
  | [] => []
  | s :: ss' =>
      if decide (chainHolds ns parentMap targetNodeIndex s)
      then i :: holdingPositions ns parentMap targetNodeIndex (S i) ss'
      else holdingPositions ns parentMap targetNodeIndex (S i) ss'
  end.

(** What one call of the descendant search guarantees about the set it
    returns: it only grows the set, by ids reached from [n]; it takes in
    every child of [n]; and every id it adds has all its children in the
    result. *)
Definition searched (childMap : gmap Z (list Z)) (n : Z) (before after : gset Z) : Prop :=
  before ⊆ after ∧
  (∀ x, x ∈ after → x ∉ before → tc (childEdge childMap) n x) ∧
  (∀ c, childEdge childMap n c → c ∈ after) ∧
  (∀ x c, x ∈ after → x ∉ before → childEdge childMap x c → c ∈ after).

(** The entry placed first has the largest count. *)
Definition topFirst (l : list Entry) : Prop :=
  match l with
  | [] => True
  | top :: _ => ∀ e, e ∈ l → e_count e ≤ e_count top
  end.

(** The signature under which a call stack is aggregated. *)
Definition signatureOf (c : CallStack) : string :=
  stackKey (dropLast (cs_stack c)).

(** [stackMap.get(key)]. *)
Fixpoint assoc (key : string) (stackMap : list (string * Entry)) : option Entry :=
  match stackMap with
  | [] => None
  | (k, e) :: rest => if decide (k = key) then Some e else assoc key rest
  end.

(** The ranking of the aggregated entries: [a] may stand before [b]. *)
Definition ranksBefore (a b : Entry) : Prop :=
  e_count b < e_count a ∨ (e_count b = e_count a ∧ e_totalTime b ≤ e_totalTime a).

(** Every list of parents is in increasing order and bounded by [bound]. *)
Definition parentsSorted (bound : Z) (parentMap : gmap Z (list Z)) : Prop :=
  ∀ c ps, parentMap !! c = Some ps →
          StronglySorted Z.le ps ∧ Forall (λ x, x ≤ bound) ps.

(** The text holds a slash. *)
Fixpoint hasSlash (s : string) : bool :=
  match s with
  | EmptyString => false
  | String c s' => Ascii.eqb c "/"%char || hasSlash s'
  end.

(** The target record that [findTargetNodes] pushes for node [k]. *)
Definition targetOf (k : nat) (node : Node) : TargetNode :=
  {| tn_index := Z.of_nat k; tn_node := node;
     tn_callFrame := callFrame node; tn_hitCount := hitCount node |}.

(** [sub] occurs in [s]. *)
Definition occursIn (sub s : string) : Prop :=
  ∃ pre post, s = pre +:+ sub +:+ post.

(** The number of samples taken at node [k]. *)
Definition occurrences (k : Z) (ss : list Z) : Z :=
  Z.of_nat (length (filter (λ s, s = k) ss)).

(** [descendantCounts.get(k) || 0]. *)
Fixpoint countOf (k : Z) (descendantCounts : list (Z * Z)) : Z :=
  match descendantCounts with
  | [] => 0
  | (k', n) :: rest => if decide (k' = k) then n else countOf k rest
  end.

(** [value] stands right after [flag] somewhere in [args]. *)
Definition follows (flag value : string) (args : list string) : Prop :=
  ∃ pre post, args = pre ++ flag :: value :: post.

(** Every option is its default or was read from a flag and the
    non-empty argument after it. *)
Definition fromFlags (parseInt : string → option Z) (args : list string)
    (options : Options) : Prop :=
  (o_function options = None
   ∨ ∃ v, o_function options = Some v ∧ v ≠ "" ∧ follows "--function" v args) ∧
  (o_file options = None
   ∨ ∃ v, o_file options = Some v ∧ v ≠ "" ∧ follows "--file" v args) ∧
  (o_top options = Some 20
   ∨ ∃ v, o_top options = parseInt v ∧ v ≠ "" ∧ follows "--top" v args).

Definition isHelp (arg : string) : Prop := arg = "--help" ∨ arg = "-h".

(** ** Example profiles *)

Definition plainNode (name : string) (hits : Z) (cs : list Z) (i : Z) : Node :=
  {| id := i;
     callFrame := {| functionName := name; url := ""; lineNumber := 0; columnNumber := 0 |};
     hitCount := hits;
     children := cs |}.

(** The scenario of the specification: root -> A -> B. *)
Definition scenarioProfile : Profile :=
  {| nodes := [plainNode "root" 0 [1] 0; plainNode "A" 2 [2] 1; plainNode "B" 3 [] 2];
     samples := [1; 2; 2];
     timeDeltas := [100; 200; 300] |}.

(** root -> A -> B -> C, one sample taken in C. *)
Definition leafProfile : Profile :=
  {| nodes := [plainNode "root" 0 [1] 0; plainNode "A" 0 [2] 1;
               plainNode "B" 1 [3] 2; plainNode "C" 1 [] 3];
     samples := [3];
     timeDeltas := [100] |}.

(** root -> A -> B -> C, one sample in B and two in C. *)
Definition mixedProfile : Profile :=
  {| nodes := [plainNode "root" 0 [1] 0; plainNode "A" 0 [2] 1;
               plainNode "B" 1 [3] 2; plainNode "C" 2 [] 3];
     samples := [2; 3; 3];
     timeDeltas := [10; 20; 30] |}.

(** A recursion [f -> f -> ... -> f] of [n] nodes: node [i] calls node
    [i + 1], the last node calls nothing. *)
Definition recursionNodes (n : nat) : list Node :=
  imap (λ i _, plainNode "f" 1
                 (if decide (S i < n)%nat then [Z.of_nat (S i)] else [])
                 (Z.of_nat i))
       (replicate n ()).

Definition recursionProfile : Profile :=
  {| nodes := recursionNodes 22; samples := [21; 19]; timeDeltas := [5; 7] |}.


(** A single node whose children list names the id 5, outside the table. *)
Definition danglingNodes : list Node := [plainNode "main" 1 [5] 0].

(** * Theorems *)

(** ** The call-graph index *)

Section Indexer.

Implicit Types (parentMap childMap : gmap Z (list Z)) (i c : Z).

Lemma addEdge_childEdge i st c i' c' :
  childEdge (addEdge i st c).2 i' c' ↔ childEdge st.2 i' c' ∨ (i' = i ∧ c' = c).
Proof.
  destruct st as [pm cm]; simpl. unfold childEdge.
  destruct (decide (i' = i)) as [->|Hne].
  - rewrite lookup_insert_eq. split.
    + intros (cs & [= <-] & Hin). apply elem_of_app in Hin as [Hin|Hin].
      * left. destruct (cm !! i) as [old|]; simpl in Hin; [eauto|].
        by apply elem_of_nil in Hin.
      * right. by apply list_elem_of_singleton in Hin.
    + intros [(cs & Hcs & Hin)|[_ ->]]; eexists; (split; [done|]).
      * rewrite Hcs. simpl. apply elem_of_app. by left.
      * apply elem_of_app. right. by apply list_elem_of_singleton.
  - rewrite lookup_insert_ne; [|done]. naive_solver.
Qed.

Lemma addEdge_parentEdge i st c i' c' :
  parentEdge (addEdge i st c).1 c' i' ↔ parentEdge st.1 c' i' ∨ (i' = i ∧ c' = c).
Proof.
  destruct st as [pm cm]; simpl. unfold parentEdge.
  destruct (decide (c' = c)) as [->|Hne].
  - rewrite lookup_insert_eq. split.
    + intros (ps & [= <-] & Hin). apply elem_of_app in Hin as [Hin|Hin].
      * left. destruct (pm !! c) as [old|]; simpl in Hin; [eauto|].
        by apply elem_of_nil in Hin.
      * right. by apply list_elem_of_singleton in Hin.
    + intros [(ps & Hps & Hin)|[-> _]]; eexists; (split; [done|]).
      * rewrite Hps. simpl. apply elem_of_app. by left.
      * apply elem_of_app. right. by apply list_elem_of_singleton.
  - rewrite lookup_insert_ne; [|done]. naive_solver.
Qed.

Lemma foldl_addEdge_edges i cs st i' c' :
  (childEdge (foldl (addEdge i) st cs).2 i' c'
     ↔ childEdge st.2 i' c' ∨ (i' = i ∧ c' ∈ cs)) ∧
  (parentEdge (foldl (addEdge i) st cs).1 c' i'
     ↔ parentEdge st.1 c' i' ∨ (i' = i ∧ c' ∈ cs)).
Proof.
  revert st. induction cs as [|c cs IH]; intros st; simpl.
  - split; (split; [by left|]); intros [?|[_ []%elem_of_nil]]; done.
  - destruct (IH (addEdge i st c)) as [IHc IHp].
    rewrite IHc, IHp, addEdge_childEdge, addEdge_parentEdge.
    setoid_rewrite elem_of_cons. naive_solver.
Qed.

Lemma buildNodeTreeFrom_edges ns k0 st i' c' :
  let after := buildNodeTreeFrom k0 ns st in
  let fromNodes :=
    ∃ k node, i' = Z.of_nat (k0 + k) ∧ ns !! k = Some node ∧ c' ∈ children node in
  (childEdge after.2 i' c' ↔ childEdge st.2 i' c' ∨ fromNodes) ∧
  (parentEdge after.1 c' i' ↔ parentEdge st.1 c' i' ∨ fromNodes).
Proof.
  revert k0 st. induction ns as [|node ns IH]; intros k0 st; simpl.
  - split; (split; [by left|]); intros [?|(k & ? & _ & Hk & _)]; done.
  - destruct (IH (S k0) (foldl (addEdge (Z.of_nat k0)) st (children node)))
      as [IHc IHp].
    destruct (foldl_addEdge_edges (Z.of_nat k0) (children node) st i' c')
      as [Fc Fp].
    rewrite IHc, IHp, Fc, Fp.
    assert ((∃ k n, i' = Z.of_nat (k0 + k) ∧ (node :: ns) !! k = Some n
                    ∧ c' ∈ children n)
            ↔ (i' = Z.of_nat k0 ∧ c' ∈ children node)
              ∨ (∃ k n, i' = Z.of_nat (S k0 + k) ∧ ns !! k = Some n
                        ∧ c' ∈ children n)) as Hsplit.
    { split.
      - intros ([|k] & n & -> & Hk & Hin); simpl in Hk.
        + left. injection Hk as <-. split; [f_equal; lia|done].
        + right. exists k, n. split; [f_equal; lia|done].
      - intros [[-> Hin]|(k & n & -> & Hk & Hin)].
        + exists O, node. split; [f_equal; lia|done].
        + exists (S k), n. split; [f_equal; lia|done]. }
    rewrite Hsplit. tauto.
Qed.

Lemma buildNodeTree_childEdge ns i c :
  childEdge (buildNodeTree ns).2 i c ↔ nodeEdge ns i c.
Proof.
  unfold buildNodeTree.
  destruct (buildNodeTreeFrom_edges ns 0 (∅, ∅) i c) as [Hc _].
  simpl in Hc. rewrite Hc. unfold nodeEdge. split.
  - intros [(cs & Hcs & _)|H]; [by rewrite lookup_empty in Hcs|done].
  - by right.
Qed.

Lemma buildNodeTree_parentEdge ns i c :
  parentEdge (buildNodeTree ns).1 c i ↔ nodeEdge ns i c.
Proof.
  unfold buildNodeTree.
  destruct (buildNodeTreeFrom_edges ns 0 (∅, ∅) i c) as [_ Hp].
  simpl in Hp. rewrite Hp. unfold nodeEdge. split.
  - intros [(cs & Hcs & _)|H]; [by rewrite lookup_empty in Hcs|done].
  - by right.
Qed.

(** C7. For every node table, [buildNodeTree] holds a child edge
    [i -> c] in [childMap] exactly when node [i] lists [c] among its
    children, and a parent edge [c -> i] in [parentMap] exactly in the
    same case: every listed edge is recorded both ways and no other edge
    is recorded. *)
Theorem buildNodeTree_symmetric (ns : list Node) (i c : Z) :
  (nodeEdge ns i c ↔ childEdge (buildNodeTree ns).2 i c) ∧
  (nodeEdge ns i c ↔ parentEdge (buildNodeTree ns).1 c i) ∧
  (childEdge (buildNodeTree ns).2 i c ↔ parentEdge (buildNodeTree ns).1 c i).
Proof.
  rewrite buildNodeTree_childEdge, buildNodeTree_parentEdge. tauto.
Qed.

End Indexer.

(** ** The ancestor walk *)

Lemma omap_length_le {A B} (f : A → option B) (l : list A) :
  (length (omap f l) ≤ length l)%nat.
Proof.
  induction l as [|x l IH]; [done|]. cbn [omap list_omap].
  destruct (f x); simpl; lia.
Qed.

Section Walker.

Variable ns : list Node.
Variable parentMap : gmap Z (list Z).

Lemma pushFrame_app current stack :
  pushFrame ns current stack = stack ++ pushFrame ns current [].
Proof.
  unfold pushFrame. destruct (current <? Z.of_nat (length ns)); [|by rewrite app_nil_r].
  destruct (ns !! Z.to_nat current); [done|by rewrite app_nil_r].
Qed.

(** The frames pushed by the loop do not depend on the frames already
    on [stack]. *)
Lemma walkUp_app remaining current visited stack :
  walkUp ns parentMap remaining current visited stack
  = stack ++ walkUp ns parentMap remaining current visited [].
Proof.
  revert current visited stack.
  induction remaining as [|r IH]; intros current visited stack; simpl.
  - by rewrite app_nil_r.
  - case_decide; [|by rewrite app_nil_r].
    rewrite (pushFrame_app current stack).
    destruct (parentMap !! current) as [[|parent ps]|]; try done.
    rewrite IH, (IH _ _ (pushFrame ns current [])). by rewrite app_assoc.
Qed.

Lemma pushFrame_frameAt current :
  0 ≤ current → pushFrame ns current [] = option_list (frameAt ns current).
Proof.
  intros Hpos. unfold pushFrame, frameAt.
  destruct (Z.ltb_spec current (Z.of_nat (length ns))) as [Hlt|Hge].
  - rewrite decide_True by lia. by destruct (ns !! Z.to_nat current).
  - by rewrite decide_False by lia.
Qed.

(** The walk pushes the frames of the ids it runs on, skipping the ids
    that are not indices of the table. *)
Lemma walkUp_walkPath remaining current visited :
  walkUp ns parentMap remaining current visited []
  = omap (frameAt ns) (walkPath parentMap remaining current visited).
Proof.
  revert current visited.
  induction remaining as [|r IH]; intros current visited; simpl; [done|].
  case_decide as Hgo; [|done]. destruct Hgo as [Hpos _].
  assert (∀ tl, omap (frameAt ns) (current :: tl)
                = pushFrame ns current [] ++ omap (frameAt ns) tl) as Hcons.
  { intros tl. rewrite pushFrame_frameAt by done. simpl.
    by destruct (frameAt ns current). }
  rewrite Hcons.
  destruct (parentMap !! current) as [[|parent ps]|]; simpl;
    rewrite ?app_nil_r; try done.
  by rewrite walkUp_app, IH.
Qed.

Lemma walkPath_length remaining current visited :
  (length (walkPath parentMap remaining current visited) ≤ remaining)%nat.
Proof.
  revert current visited.
  induction remaining as [|r IH]; intros current visited; simpl; [lia|].
  case_decide; simpl; [|lia].
  destruct (parentMap !! current) as [[|parent ps]|]; simpl; try lia.
  specialize (IH parent ({[current]} ∪ visited)). lia.
Qed.

Lemma walkPath_fresh remaining current visited x :
  x ∈ walkPath parentMap remaining current visited → 0 ≤ x ∧ x ∉ visited.
Proof.
  revert current visited.
  induction remaining as [|r IH]; intros current visited; simpl.
  - by intros ?%elem_of_nil.
  - case_decide as Hgo; [|by intros ?%elem_of_nil].
    intros [->|Hin]%elem_of_cons; [done|].
    destruct (parentMap !! current) as [[|parent ps]|];
      try by apply elem_of_nil in Hin.
    apply IH in Hin. set_solver.
Qed.

Lemma walkPath_NoDup remaining current visited :
  NoDup (walkPath parentMap remaining current visited).
Proof.
  revert current visited.
  induction remaining as [|r IH]; intros current visited; simpl.
  - constructor.
  - case_decide; [|constructor].
    destruct (parentMap !! current) as [[|parent ps]|];
      try (apply NoDup_singleton).
    constructor; [|apply IH].
    intros Hin%walkPath_fresh. set_solver.
Qed.

Lemma walkPath_chain remaining current visited :
  chainFrom parentMap current (walkPath parentMap remaining current visited).
Proof.
  revert current visited.
  induction remaining as [|r IH]; intros current visited; simpl.
  - constructor.
  - case_decide; [|constructor].
    destruct (parentMap !! current) as [[|parent ps]|] eqn:Hp;
      try (apply chain_one).
    eapply chain_step; [|apply IH]. unfold firstParent. by rewrite Hp.
Qed.

Lemma frameAt_index c f : frameAt ns c = Some f → f_index f = c.
Proof.
  unfold frameAt. case_decide; [|done].
  destruct (ns !! Z.to_nat c); simpl; [|done]. by intros [= <-].
Qed.

Lemma frameAt_inRange c f :
  frameAt ns c = Some f →
  0 ≤ c < Z.of_nat (length ns) ∧ ∃ node, ns !! Z.to_nat c = Some node ∧ f = mkFrame c node.
Proof.
  unfold frameAt. case_decide; [|done].
  destruct (ns !! Z.to_nat c) as [node|]; simpl; [|done].
  intros [= <-]. eauto.
Qed.

Lemma omap_frameAt_indices (path : list Z) :
  f_index <$> omap (frameAt ns) path = filter (λ c, is_Some (frameAt ns c)) path.
Proof.
  induction path as [|c path IH]; [done|]. cbn [omap list_omap].
  destruct (frameAt ns c) as [f|] eqn:Hf.
  - rewrite filter_cons_True by eauto. rewrite fmap_cons, IH.
    by rewrite (frameAt_index _ _ Hf).
  - rewrite filter_cons_False; [done|]. rewrite Hf. by intros [? ?].
Qed.

Lemma getCallStackUp_path nodeIndex maxDepth :
  getCallStackUp ns parentMap nodeIndex maxDepth
  = omap (frameAt ns) (walkPath parentMap maxDepth nodeIndex ∅).
Proof. apply walkUp_walkPath. Qed.

(** C6. For every node table, every parent map (cyclic and
    self-referencing ones included) and every start id,
    [getCallStackUp] is a total function whose loop runs at most
    [maxDepth] times; the sequence it returns holds no node id twice,
    has at most [maxDepth] frames, is ordered innermost first (it is the
    sequence of frames of a first-parent chain that starts at the given
    id), and begins with the frame of the given node when that id is an
    index of the table and [maxDepth] is positive. *)
Theorem getCallStackUp_walk (nodeIndex : Z) (maxDepth : nat) :
  let stack := getCallStackUp ns parentMap nodeIndex maxDepth in
  NoDup (f_index <$> stack) ∧
  (length stack ≤ maxDepth)%nat ∧
  (∃ path, chainFrom parentMap nodeIndex path ∧ NoDup path ∧
           (length path ≤ maxDepth)%nat ∧ stack = omap (frameAt ns) path) ∧
  (0 ≤ nodeIndex < Z.of_nat (length ns) → (0 < maxDepth)%nat →
     ∃ node rest, ns !! Z.to_nat nodeIndex = Some node ∧
                  stack = mkFrame nodeIndex node :: rest).
Proof.
  simpl. rewrite getCallStackUp_path.
  set (path := walkPath parentMap maxDepth nodeIndex ∅).
  assert (NoDup path) as Hnd by apply walkPath_NoDup.
  assert (length path ≤ maxDepth)%nat as Hlen by apply walkPath_length.
  repeat split.
  - rewrite omap_frameAt_indices. by apply NoDup_filter.
  - etrans; [apply omap_length_le|done].
  - exists path. repeat split; try done. apply walkPath_chain.
  - intros Hrange Hpos. subst path.
    destruct maxDepth as [|r]; [lia|]. simpl.
    rewrite decide_True by set_solver. simpl.
    unfold frameAt at 1. rewrite decide_True by done.
    destruct (lookup_lt_is_Some_2 ns (Z.to_nat nodeIndex)) as [node Hnode]; [lia|].
    rewrite Hnode. simpl. eauto.
Qed.

Lemma walkEnd_ceiling remaining current visited :
  walkEnd parentMap remaining current visited = EndCeiling →
  length (walkPath parentMap remaining current visited) = remaining ∧
  ∃ next, chainFrom parentMap current
            (walkPath parentMap remaining current visited ++ [next]).
Proof.
  revert current visited.
  induction remaining as [|r IH]; intros current visited; simpl.
  - intros _. split; [done|]. exists current. constructor.
  - case_decide as Hneg; [done|].
    case_decide as Hvis; [done|].
    rewrite decide_True by (split; [lia|done]).
    destruct (parentMap !! current) as [[|parent ps]|] eqn:Hp; try done.
    intros [Hlen [next Hchain]]%IH. split; [simpl; by rewrite Hlen|].
    exists next. simpl. eapply chain_step; [|done].
    unfold firstParent. by rewrite Hp.
Qed.

Lemma walkPath_prefix d d' current visited :
  (d ≤ d')%nat →
  walkPath parentMap d current visited `prefix_of` walkPath parentMap d' current visited.
Proof.
  revert d' current visited.
  induction d as [|d IH]; intros d' current visited Hle; simpl.
  - apply prefix_nil.
  - destruct d' as [|d']; [lia|]. simpl.
    case_decide; [|done]. apply prefix_cons.
    destruct (parentMap !! current) as [[|parent ps]|]; try done.
    apply IH. lia.
Qed.

Lemma omap_prefix {A B} (f : A → option B) (l1 l2 : list A) :
  l1 `prefix_of` l2 → omap f l1 `prefix_of` omap f l2.
Proof. intros [k ->]. rewrite omap_app. by eexists. Qed.

(** C4 (amended). When an ancestor walk reaches the depth ceiling before
    a root, its result carries no mark of the truncation: it is exactly
    the frames of the first [maxDepth] ids of the first-parent chain
    (a chain that goes on with at least one more id, left out), and it
    is a prefix of what any larger ceiling returns; a signature is built
    from it as from any other list of frames. *)
Theorem truncated_walk_is_plain_prefix (nodeIndex : Z) (maxDepth : nat) :
  walkEnd parentMap maxDepth nodeIndex ∅ = EndCeiling →
  (∃ path next,
     length path = maxDepth ∧
     chainFrom parentMap nodeIndex (path ++ [next]) ∧
     getCallStackUp ns parentMap nodeIndex maxDepth = omap (frameAt ns) path) ∧
  (∀ deeper, (maxDepth ≤ deeper)%nat →
     getCallStackUp ns parentMap nodeIndex maxDepth
       `prefix_of` getCallStackUp ns parentMap nodeIndex deeper).
Proof.
  intros [Hlen [next Hchain]]%walkEnd_ceiling. split.
  - exists (walkPath parentMap maxDepth nodeIndex ∅), next.
    by rewrite getCallStackUp_path.
  - intros deeper Hle. rewrite !getCallStackUp_path.
    by apply omap_prefix, walkPath_prefix.
Qed.

End Walker.

(** ** Ids outside the node table *)

Section Dangling.

Variable ns : list Node.

Lemma nodeEdge_inRange i c : nodeEdge ns i c → 0 ≤ i < Z.of_nat (length ns).
Proof.
  intros (k & node & -> & Hk & _). apply lookup_lt_Some in Hk. lia.
Qed.

Lemma firstParent_nodeEdge c p :
  firstParent (buildNodeTree ns).1 c = Some p → nodeEdge ns p c.
Proof.
  unfold firstParent.
  destruct ((buildNodeTree ns).1 !! c) as [[|q ps]|] eqn:Hc; try done.
  intros [= ->]. apply buildNodeTree_parentEdge.
  exists (p :: ps). split; [done|]. apply elem_of_cons. by left.
Qed.

Lemma nodeEdge_firstParent i c :
  nodeEdge ns i c → ∃ p, firstParent (buildNodeTree ns).1 c = Some p.
Proof.
  intros (ps & Hps & Hin)%buildNodeTree_parentEdge.
  unfold firstParent. rewrite Hps.
  destruct ps as [|p ps]; [by apply elem_of_nil in Hin|eauto].
Qed.

Lemma no_nodeEdge_no_parent c :
  (∀ i, ¬ nodeEdge ns i c) → firstParent (buildNodeTree ns).1 c = None.
Proof.
  intros Hno. destruct (firstParent _ c) as [p|] eqn:Hp; [|done].
  by apply firstParent_nodeEdge, Hno in Hp.
Qed.

(** C9 (amended). An id outside the node table is accepted by the
    indexer, which records its edges like any other, and a walk started
    at such an id does not read the table there: it pushes no frame for
    it.  The walk is a dead end when the id is negative or is listed in no
    children list; when the id is at or beyond the end of the table and
    some node lists it as a child, the walk goes on to the first node
    that lists it and returns that node's frame first. *)
Theorem out_of_range_walk (c : Z) (maxDepth : nat) :
  ¬ (0 ≤ c < Z.of_nat (length ns)) →
  let parentMap := (buildNodeTree ns).1 in
  let childMap := (buildNodeTree ns).2 in
  let stack := getCallStackUp ns parentMap c maxDepth in
  (∀ i, nodeEdge ns i c → parentEdge parentMap c i ∧ childEdge childMap i c) ∧
  (∀ f, f ∈ stack → f_index f ≠ c) ∧
  (c < 0 → stack = []) ∧
  ((∀ i, ¬ nodeEdge ns i c) → stack = []) ∧
  (0 ≤ c → (∃ i, nodeEdge ns i c) → (2 ≤ maxDepth)%nat →
     ∃ p node rest,
       firstParent parentMap c = Some p ∧ nodeEdge ns p c ∧
       ns !! Z.to_nat p = Some node ∧ stack = mkFrame p node :: rest).
Proof.
  intros Hout. simpl. repeat split.
  - by apply buildNodeTree_parentEdge.
  - by apply buildNodeTree_childEdge.
  - intros f. rewrite getCallStackUp_path.
    intros (x & _ & Hx)%list_elem_of_omap.
    destruct (frameAt_inRange _ _ _ Hx) as [Hr _].
    rewrite (frameAt_index _ _ _ Hx). intros ->. done.
  - intros Hneg. unfold getCallStackUp.
    destruct maxDepth; simpl; [done|]. rewrite decide_False; [done|]. lia.
  - intros Hno. rewrite getCallStackUp_path.
    destruct maxDepth as [|r]; simpl; [done|].
    case_decide; [|done].
    pose proof (no_nodeEdge_no_parent c Hno) as Hp. unfold firstParent in Hp.
    destruct ((buildNodeTree ns).1 !! c) as [[|q ps]|]; try done.
    all: cbn [omap list_omap]; unfold frameAt; by rewrite decide_False.
  - intros Hpos [i Hi] Hdepth. rewrite getCallStackUp_path.
    destruct (nodeEdge_firstParent _ _ Hi) as [p Hp].
    pose proof (firstParent_nodeEdge _ _ Hp) as Hedge.
    pose proof (nodeEdge_inRange _ _ Hedge) as Hrange.
    destruct (lookup_lt_is_Some_2 ns (Z.to_nat p)) as [node Hnode]; [lia|].
    destruct maxDepth as [|[|r]]; [lia|lia|].
    exists p, node. eexists. repeat split; try done.
    cbn [walkPath]. rewrite decide_True by set_solver.
    unfold firstParent in Hp.
    destruct ((buildNodeTree ns).1 !! c) as [[|q ps]|]; try done.
    injection Hp as ->.
    rewrite decide_True by (split; [lia|]; set_solver by lia).
    cbn [omap list_omap]. unfold frameAt at 1. rewrite decide_False by done.
    unfold frameAt at 1. rewrite decide_True by done. rewrite Hnode. simpl.
    reflexivity.
Qed.

End Dangling.

(** ** The descendant search *)

Section Descendants.

Variable childMap : gmap Z (list Z).

Local Notation "'E'" := (childEdge childMap).
Local Notation "'U'" := (childIds childMap).

Lemma elem_of_childIds c : c ∈ U ↔ ∃ i, E i c.
Proof.
  unfold childIds, childEdge. rewrite elem_of_list_to_set, list_elem_of_In, in_concat.
  split.
  - intros (cs & Hcs%list_elem_of_In & Hin%list_elem_of_In).
    apply list_elem_of_fmap in Hcs as ([i cs'] & -> & Hi).
    apply elem_of_map_to_list in Hi. eauto.
  - intros (i & cs & Hi & Hin). exists cs.
    split; apply list_elem_of_In; [|done].
    apply list_elem_of_fmap. exists (i, cs). split; [done|].
    by apply elem_of_map_to_list.
Qed.

Lemma childEdge_default n c : c ∈ default [] (childMap !! n) ↔ E n c.
Proof.
  unfold childEdge. destruct (childMap !! n) as [cs|]; simpl.
  - naive_solver.
  - split; [by intros ?%elem_of_nil|]. by intros (? & ? & _).
Qed.

Lemma forChildren_searched depth n cs before :
  (∀ m D, size (U ∖ D) < S depth →
     ∃ D', collectDescendants (S depth) childMap m D = Some D' ∧ searched childMap m D D')%nat →
  (∀ c, c ∈ cs → E n c) →
  (size (U ∖ before) < S (S depth))%nat →
  ∃ after,
    forChildren (collectDescendants (S depth) childMap) cs before = Some after ∧
    before ⊆ after ∧
    (∀ x, x ∈ after → x ∉ before → tc E n x) ∧
    (∀ c, c ∈ cs → c ∈ after) ∧
    (∀ x c, x ∈ after → x ∉ before → E x c → c ∈ after).
Proof.
  intros Hrec. revert before.
  induction cs as [|child cs IH]; intros before Hcs Hsize.
  - exists before. simpl. repeat split; try done. by intros ? ?%elem_of_nil.
  - cbn [forChildren]. case_decide as Hseen.
    + destruct (IH before) as (after & Hrun & Hsub & Hreach & Hall & Hclosed).
      { intros c Hc. apply Hcs. apply elem_of_cons. by right. }
      { done. }
      exists after. repeat split; try done.
      intros c [->|Hc]%elem_of_cons; [set_solver|by apply Hall].
    + assert (E n child) as Hedge by (apply Hcs; apply elem_of_cons; by left).
      assert (child ∈ U) as HinU by (apply elem_of_childIds; eauto).
      destruct (Hrec child ({[child]} ∪ before))
        as (mid & Hmid & Hsub1 & Hreach1 & Hkids1 & Hclosed1).
      { assert (U ∖ ({[child]} ∪ before) ⊂ U ∖ before) as Hlt by set_solver.
        apply subset_size in Hlt. lia. }
      rewrite Hmid.
      destruct (IH mid) as (after & Hrun & Hsub2 & Hreach2 & Hall2 & Hclosed2).
      { intros c Hc. apply Hcs. apply elem_of_cons. by right. }
      { assert (U ∖ mid ⊆ U ∖ before) as Hle by set_solver.
        apply subseteq_size in Hle. lia. }
      exists after. split; [done|]. repeat split.
      * set_solver.
      * intros x Hx Hnew.
        destruct (decide (x ∈ mid)) as [Hm|Hm]; [|by apply Hreach2].
        destruct (decide (x = child)) as [->|Hne]; [by apply tc_once|].
        eapply tc_l; [done|]. apply Hreach1; [done|set_solver].
      * intros c [->|Hc]%elem_of_cons; [set_solver|by apply Hall2].
      * intros x c Hx Hnew Hxc.
        destruct (decide (x ∈ mid)) as [Hm|Hm]; [|by eapply Hclosed2].
        apply Hsub2.
        destruct (decide (x = child)) as [->|Hne]; [by apply Hkids1|].
        eapply Hclosed1; [done| |done]. set_solver.
Qed.

(** The search never exhausts an allowance larger than the number of
    ids it can still add. *)
Lemma collectDescendants_searched depth n before :
  (size (U ∖ before) < depth)%nat →
  ∃ after, collectDescendants depth childMap n before = Some after ∧
           searched childMap n before after.
Proof.
  revert n before. induction depth as [|depth IH]; intros n before Hsize; [lia|].
  destruct depth as [|depth].
  - (* nothing is left to add: every child is already in the set *)
    assert (∀ c, E n c → c ∈ before) as Hall.
    { intros c Hc. destruct (decide (c ∈ before)) as [|Hout]; [done|].
      assert (c ∈ U ∖ before) as Hin.
      { apply elem_of_difference. split; [|done]. apply elem_of_childIds. eauto. }
      assert (size (U ∖ before) ≠ 0)%nat; [|lia].
      intros Hz%size_empty_inv. set_solver. }
    cbn [collectDescendants].
    assert (∀ cs, (∀ c, c ∈ cs → c ∈ before) →
              forChildren (collectDescendants 0 childMap) cs before = Some before)
      as Hloop.
    { induction cs as [|c cs IHcs]; intros Hcs; [done|]. cbn [forChildren].
      rewrite decide_True by (apply Hcs, elem_of_cons; by left).
      apply IHcs. intros c' Hc'. apply Hcs, elem_of_cons. by right. }
    exists before. split.
    + apply Hloop. intros c Hc. by apply Hall, childEdge_default.
    + repeat split; try done.
  - cbn [collectDescendants].
    destruct (forChildren_searched depth n (default [] (childMap !! n)) before)
      as (after & Hrun & Hsub & Hreach & Hall & Hclosed).
    + intros m D Hm. by apply IH.
    + intros c Hc. by apply childEdge_default.
    + done.
    + exists after. split; [done|]. repeat split; try done.
      intros c Hc. by apply Hall, childEdge_default.
Qed.

Lemma searched_from_empty n after :
  searched childMap n ∅ after → ∀ x, x ∈ after ↔ tc E n x.
Proof.
  intros (_ & Hreach & Hkids & Hclosed) x. split.
  - intros Hx. apply Hreach; [done|set_solver].
  - revert x. apply tc_ind_r; [done|].
    intros y z _ Hyz Hy. eapply Hclosed; [done|set_solver|done].
Qed.


Lemma forChildren_mono (f g : Z → gset Z → option (gset Z)) cs D R :
  (∀ c D' R', f c D' = Some R' → g c D' = Some R') →
  forChildren f cs D = Some R → forChildren g cs D = Some R.
Proof.
  intros Hfg. revert D. induction cs as [|c cs IH]; intros D; simpl; [done|].
  case_decide; [apply IH|].
  destruct (f c ({[c]} ∪ D)) as [D'|] eqn:Hf; [|done].
  rewrite (Hfg _ _ _ Hf). apply IH.
Qed.

(** A search that returns with room for [depth] activations returns the
    same set with room for more. *)
Lemma collectDescendants_mono depth depth' n D R :
  (depth ≤ depth')%nat →
  collectDescendants depth childMap n D = Some R →
  collectDescendants depth' childMap n D = Some R.
Proof.
  revert depth' n D R. induction depth as [|d IH]; intros depth' n D R Hle; [done|].
  destruct depth' as [|d']; [lia|]. cbn [collectDescendants].
  apply forChildren_mono. intros c D' R'. apply IH. lia.
Qed.

Lemma collectDescendants_roomy depth n before :
  (recursionBound childMap ≤ depth)%nat →
  is_Some (collectDescendants depth childMap n before).
Proof.
  unfold recursionBound. intros Hroom.
  destruct (collectDescendants_searched depth n before) as (after & -> & _); [|done].
  assert (size (U ∖ before) ≤ size U)%nat; [|lia].
  apply subseteq_size. set_solver.
Qed.

Lemma collectDescendants_returned depth n before after :
  collectDescendants depth childMap n before = Some after →
  searched childMap n before after.
Proof.
  intros Hrun.
  destruct (collectDescendants_searched (depth `max` recursionBound childMap) n before)
    as (after' & Hrun' & Hs).
  { unfold recursionBound.
    assert (size (U ∖ before) ≤ size U)%nat; [|lia].
    apply subseteq_size. set_solver. }
  rewrite (collectDescendants_mono depth _ n before after) in Hrun'; [|lia|done].
  by injection Hrun' as ->.
Qed.


End Descendants.





(** ** The aggregation *)

Section Aggregator.

Lemma sumZ_cons x l : sumZ (x :: l) = x + sumZ l.
Proof. done. Qed.

Lemma sumZ_app l1 l2 : sumZ (l1 ++ l2) = sumZ l1 + sumZ l2.
Proof. induction l1 as [|x l1 IH]; simpl; [done|]. rewrite IH. lia. Qed.

Lemma sumZ_perm l1 l2 : l1 ≡ₚ l2 → sumZ l1 = sumZ l2.
Proof. induction 1; simpl; lia. Qed.

Lemma bump_ok timeDelta e :
  e_count e = Z.of_nat (length (e_samples e)) →
  e_totalTime e = sumZ (e_samples e) →
  entryOk (bump timeDelta e).
Proof.
  intros Hc Ht. unfold entryOk, bump. simpl.
  rewrite length_app, sumZ_app. simpl. lia.
Qed.

Lemma record_ok key callers timeDelta stackMap :
  Forall entryOk stackMap.*2 → Forall entryOk (record key callers timeDelta stackMap).*2.
Proof.
  induction stackMap as [|[k e] rest IH]; simpl; intros Hok.
  - constructor; [|constructor]. by apply bump_ok.
  - inversion_clear Hok as [|? ? He Hrest]. case_decide; simpl.
    + constructor; [|done]. destruct He as (Hc & Ht & _). by apply bump_ok.
    + constructor; [done|]. by apply IH.
Qed.

Lemma record_counts key callers timeDelta stackMap :
  sumCounts (record key callers timeDelta stackMap).*2 = sumCounts stackMap.*2 + 1.
Proof.
  unfold sumCounts.
  induction stackMap as [|[k e] rest IH]; [done|]. cbn [record].
  case_decide; rewrite !fmap_cons, !sumZ_cons; [|rewrite IH]; simpl; lia.
Qed.

Lemma foldl_aggregateStep_ok callStacks stackMap :
  Forall entryOk stackMap.*2 →
  Forall entryOk (foldl aggregateStep stackMap callStacks).*2.
Proof.
  revert stackMap. induction callStacks as [|c cs IH]; intros m Hm; simpl; [done|].
  apply IH. by apply record_ok.
Qed.

Lemma foldl_aggregateStep_counts callStacks stackMap :
  sumCounts (foldl aggregateStep stackMap callStacks).*2
  = sumCounts stackMap.*2 + Z.of_nat (length callStacks).
Proof.
  revert stackMap. induction callStacks as [|c cs IH]; intros m; simpl; [lia|].
  rewrite IH. unfold aggregateStep. rewrite record_counts. lia.
Qed.

Lemma insertEntry_perm x l : insertEntry x l ≡ₚ x :: l.
Proof.
  induction l as [|y l IH]; simpl; [done|].
  case_decide; [|done]. rewrite IH. apply Permutation_swap.
Qed.

Lemma sortEntries_perm l : sortEntries l ≡ₚ l.
Proof.
  induction l as [|x l IH]; simpl; [done|].
  rewrite insertEntry_perm. by rewrite IH.
Qed.

Lemma sumCounts_sortEntries l : sumCounts (sortEntries l) = sumCounts l.
Proof. unfold sumCounts. apply sumZ_perm. by rewrite sortEntries_perm. Qed.

Lemma aggregateCallStacks_Forall_ok callStacks :
  Forall entryOk (aggregateCallStacks callStacks).
Proof.
  unfold aggregateCallStacks. rewrite sortEntries_perm.
  apply foldl_aggregateStep_ok. constructor.
Qed.

(** C10. After any sequence of call stacks, every entry returned by
    [aggregateCallStacks] (and every entry of [stackMap] before the
    sort) has [count] equal to the length of its list of per-sample
    costs, [totalTime] equal to the sum of that list, and [count] at
    least 1. *)
Theorem aggregateCallStacks_entries_ok (callStacks : list CallStack) :
  Forall entryOk (foldl aggregateStep [] callStacks).*2 ∧
  Forall entryOk (aggregateCallStacks callStacks).
Proof.
  split; [|apply aggregateCallStacks_Forall_ok].
  apply foldl_aggregateStep_ok. constructor.
Qed.

Lemma aggregateCallStacks_counts callStacks :
  sumCounts (aggregateCallStacks callStacks) = Z.of_nat (length callStacks).
Proof.
  unfold aggregateCallStacks.
  rewrite sumCounts_sortEntries, foldl_aggregateStep_counts. unfold sumCounts. simpl. lia.
Qed.

End Aggregator.

(** ** The sample loop of the caller analysis *)

Section Samples.

Variable ns : list Node.
Variable parentMap : gmap Z (list Z).
Variable targetDescendants : gset Z.
Variable t : Z.
Variable tds : list Z.

Lemma existsb_isTarget (stack : list Frame) :
  existsb (isTarget t) stack = true ↔ t ∈ f_index <$> stack.
Proof.
  rewrite existsb_exists, list_elem_of_fmap. unfold isTarget. split.
  - intros (f & Hin%list_elem_of_In & Hf%bool_decide_eq_true). eauto.
  - intros (f & -> & Hin). exists f. split; [by apply list_elem_of_In|].
    by apply bool_decide_eq_true.
Qed.

Lemma findIndex_isTarget (stack : list Frame) :
  match findIndex (isTarget t) stack with
  | Some k => ∃ f, stack !! k = Some f ∧ f_index f = t ∧
                   ∀ j g, (j < k)%nat → stack !! j = Some g → f_index g ≠ t
  | None => t ∉ f_index <$> stack
  end.
Proof.
  induction stack as [|f stack IH].
  - simpl. by intros ?%elem_of_nil.
  - cbn [findIndex]. unfold isTarget at 1. case_bool_decide as Hf.
    + exists f. repeat split; try done. intros j g Hj. lia.
    + destruct (findIndex (isTarget t) stack) as [k|]; simpl.
      * destruct IH as (f' & Hk & Hidx & Hfirst). exists f'. repeat split; try done.
        intros [|j] g Hj; simpl; [by intros [= <-]|].
        apply Hfirst. lia.
      * intros [?|?]%elem_of_cons; done.
Qed.

(** A sample yields a call stack exactly when its rebuilt chain holds
    the target; membership in [targetDescendants] changes nothing. *)
Lemma sampleCallStack_Some i s :
  chainHolds ns parentMap t s →
  ∃ c, sampleCallStack ns parentMap targetDescendants t tds i s = Some c ∧
       cs_sampleIndex c = i.
Proof.
  unfold chainHolds, sampleCallStack. intros Hin.
  pose proof (proj2 (existsb_isTarget _) Hin) as Hex. rewrite Hex.
  rewrite andb_false_r.
  pose proof (findIndex_isTarget (getCallStackUp ns parentMap s defaultMaxDepth)) as Hfind.
  destruct (findIndex _ _) as [k|]; [|done].
  destruct Hfind as (f & Hk & _). apply lookup_lt_Some in Hk.
  rewrite length_rev, length_take.
  destruct (Nat.ltb_spec 0 (S k `min` length (getCallStackUp ns parentMap s defaultMaxDepth)));
    [eauto|lia].
Qed.

Lemma sampleCallStack_None i s :
  ¬ chainHolds ns parentMap t s →
  sampleCallStack ns parentMap targetDescendants t tds i s = None.
Proof.
  unfold chainHolds, sampleCallStack. intros Hout.
  pose proof (findIndex_isTarget (getCallStackUp ns parentMap s defaultMaxDepth)) as Hfind.
  destruct (findIndex _ _) as [k|].
  - destruct Hfind as (f & Hk & Hidx & _). destruct Hout.
    apply list_elem_of_fmap. exists f. split; [done|].
    by eapply list_elem_of_lookup_2.
  - by destruct (_ && _).
Qed.

Lemma processSamples_app i ss callStacks :
  processSamples ns parentMap targetDescendants t tds i ss callStacks
  = callStacks ++ processSamples ns parentMap targetDescendants t tds i ss [].
Proof.
  revert i callStacks. induction ss as [|s ss IH]; intros i acc; simpl.
  - by rewrite app_nil_r.
  - rewrite IH. rewrite (IH _ (match _ with Some c => [c] | None => [] end)).
    destruct (sampleCallStack _ _ _ _ _ _ _); simpl;
      by rewrite ?app_nil_r, <-?app_assoc.
Qed.

Lemma processSamples_positions i ss :
  cs_sampleIndex <$> processSamples ns parentMap targetDescendants t tds i ss []
  = holdingPositions ns parentMap t i ss.
Proof.
  revert i. induction ss as [|s ss IH]; intros i; simpl; [done|].
  rewrite processSamples_app. case_decide as Hs.
  - destruct (sampleCallStack_Some i s Hs) as (c & -> & Hc).
    simpl. by rewrite IH, Hc.
  - rewrite (sampleCallStack_None i s Hs). simpl. apply IH.
Qed.

Lemma holdingPositions_spec i ss j :
  j ∈ holdingPositions ns parentMap t i ss
  ↔ ∃ k s, j = (i + k)%nat ∧ ss !! k = Some s ∧ chainHolds ns parentMap t s.
Proof.
  revert i. induction ss as [|s ss IH]; intros i; simpl.
  - split; [by intros ?%elem_of_nil|]. by intros (k & ? & _ & ? & _).
  - assert ((∃ k s', j = (i + k)%nat ∧ (s :: ss) !! k = Some s'
                     ∧ chainHolds ns parentMap t s')
            ↔ (j = i ∧ chainHolds ns parentMap t s)
              ∨ (∃ k s', j = (S i + k)%nat ∧ ss !! k = Some s'
                         ∧ chainHolds ns parentMap t s')) as Hsplit.
    { split.
      - intros ([|k] & s' & -> & Hk & Hs); simpl in Hk.
        + left. injection Hk as <-. split; [lia|done].
        + right. exists k, s'. split; [lia|done].
      - intros [[-> Hs]|(k & s' & -> & Hk & Hs)].
        + exists O, s. split; [lia|done].
        + exists (S k), s'. split; [lia|done]. }
    rewrite Hsplit. case_decide as Hs.
    + rewrite elem_of_cons, IH. tauto.
    + rewrite IH. tauto.
Qed.

Lemma holdingPositions_ge i ss j :
  j ∈ holdingPositions ns parentMap t i ss → (i ≤ j)%nat.
Proof. intros (k & s & -> & _)%holdingPositions_spec. lia. Qed.

Lemma holdingPositions_NoDup i ss : NoDup (holdingPositions ns parentMap t i ss).
Proof.
  revert i. induction ss as [|s ss IH]; intros i; simpl; [constructor|].
  case_decide; [|apply IH]. constructor; [|apply IH].
  intros Hin%holdingPositions_ge. lia.
Qed.

Lemma holdingPositions_length i ss :
  length (holdingPositions ns parentMap t i ss)
  = length (filter (chainHolds ns parentMap t) ss).
Proof.
  revert i. induction ss as [|s ss IH]; intros i; simpl; [done|].
  case_decide.
  - rewrite filter_cons_True by done. simpl. by rewrite IH.
  - rewrite filter_cons_False by done. apply IH.
Qed.

End Samples.

Lemma buildCallStack_roomy (stackLimit : nat) (profile : Profile) (t : Z) :
  (recursionBound (buildNodeTree (nodes profile)).2 ≤ stackLimit)%nat →
  is_Some (buildCallStack stackLimit profile t).
Proof.
  unfold buildCallStack, findDescendants.
  destruct (buildNodeTree (nodes profile)) as [parentMap childMap]. simpl.
  intros Hroom.
  by destruct (collectDescendants_roomy childMap stackLimit t {[t]} Hroom) as [td ->].
Qed.

Lemma buildCallStack_returned (stackLimit : nat) (profile : Profile) (t : Z)
    (callStacks : list CallStack) :
  buildCallStack stackLimit profile t = Some callStacks →
  ∃ td,
    callStacks
    = processSamples (nodes profile) (buildNodeTree (nodes profile)).1
        td t (timeDeltas profile) 0 (samples profile) [].
Proof.
  unfold buildCallStack.
  destruct (buildNodeTree (nodes profile)) as [parentMap childMap]. simpl.
  destruct (findDescendants _ _ _) as [td|]; [|done]. intros [= <-]. eauto.
Qed.

Lemma buildCallStack_mono (stackLimit stackLimit' : nat) (profile : Profile)
    (t : Z) (callStacks : list CallStack) :
  (stackLimit ≤ stackLimit')%nat →
  buildCallStack stackLimit profile t = Some callStacks →
  buildCallStack stackLimit' profile t = Some callStacks.
Proof.
  unfold buildCallStack, findDescendants.
  destruct (buildNodeTree (nodes profile)) as [parentMap childMap]. intros Hle.
  destruct (collectDescendants stackLimit _ _ _) as [td|] eqn:Hrun; [|done].
  by rewrite (collectDescendants_mono childMap stackLimit stackLimit' t _ td Hle Hrun).
Qed.

Lemma buildCallStack_agree (stackLimit stackLimit' : nat) (profile : Profile)
    (t : Z) (callStacks callStacks' : list CallStack) :
  buildCallStack stackLimit profile t = Some callStacks →
  buildCallStack stackLimit' profile t = Some callStacks' →
  callStacks = callStacks'.
Proof.
  intros H H'.
  apply (buildCallStack_mono _ (stackLimit `max` stackLimit')) in H; [|lia].
  apply (buildCallStack_mono _ (stackLimit `max` stackLimit')) in H'; [|lia].
  congruence.
Qed.

(** C3. For every profile and every target node, the caller analysis
    returns whenever the call stack has room for the descendant search,
    and whenever it returns, the sum of [count] over its aggregated
    entries is the number of samples whose rebuilt ancestor chain holds
    the target: the call stacks that are aggregated come, one each and in
    order, from exactly the sample positions whose chain holds the target,
    so that no such sample is counted twice or dropped and no other sample
    contributes. *)
Theorem aggregated_counts_are_holding_samples (stackLimit : nat)
    (profile : Profile) (t : Z) :
  let parentMap := (buildNodeTree (nodes profile)).1 in
  let holds := chainHolds (nodes profile) parentMap t in
  ((recursionBound (buildNodeTree (nodes profile)).2 ≤ stackLimit)%nat →
   is_Some (buildCallStack stackLimit profile t)) ∧
  ∀ callStacks,
    buildCallStack stackLimit profile t = Some callStacks →
    sumCounts (aggregateCallStacks callStacks)
      = Z.of_nat (length (filter holds (samples profile))) ∧
    length callStacks = length (filter holds (samples profile)) ∧
    NoDup (cs_sampleIndex <$> callStacks) ∧
    (∀ i, i ∈ cs_sampleIndex <$> callStacks
          ↔ ∃ s, samples profile !! i = Some s ∧ holds s).
Proof.
  cbv zeta. split; [apply buildCallStack_roomy|].
  intros out [td ->]%buildCallStack_returned.
  set (parentMap := (buildNodeTree (nodes profile)).1).
  set (out := processSamples _ _ _ _ _ _ _ _).
  assert (cs_sampleIndex <$> out
          = holdingPositions (nodes profile) parentMap t 0 (samples profile)) as Hpos
    by apply processSamples_positions.
  assert (length out = length (filter (chainHolds (nodes profile) parentMap t)
                                 (samples profile))) as Hlen.
  { rewrite <-(length_fmap cs_sampleIndex), Hpos. apply holdingPositions_length. }
  repeat split.
  - by rewrite aggregateCallStacks_counts, Hlen.
  - done.
  - rewrite Hpos. apply holdingPositions_NoDup.
  - rewrite Hpos. intros (k & s & -> & Hk & Hs)%holdingPositions_spec. eauto.
  - rewrite Hpos. intros (s & Hi & Hs). apply holdingPositions_spec.
    exists i, s. done.
Qed.

(** C3 (the statement at the scenario profile, target B). *)
Lemma aggregated_counts_are_holding_samples_witness :
  is_Some (buildCallStack 4 scenarioProfile 2).
Proof.
  apply (aggregated_counts_are_holding_samples 4 scenarioProfile 2).
  vm_compute. lia.
Defined.

(** The frames that go into a signature: [relevantStack] runs from the
    target to the sample's own frame, and [stack.slice(0, -1)] removes the
    last of these, so the signature is built from the part of the walk
    strictly above the sample's frame, up to and including the target. *)
Lemma dropLast_rev {A} (l : list A) : dropLast (rev l) = rev (drop 1 l).
Proof.
  unfold dropLast. rewrite length_rev.
  change (take (length l - 1) (rev l)) with (firstn (length l - 1) (rev l)).
  rewrite firstn_rev. f_equal.
  replace (length l - (length l - 1))%nat with (if l is [] then 0 else 1)%nat
    by (destruct l; simpl; lia).
  by destruct l.
Qed.

Lemma sampleCallStack_signature ns parentMap td t tds i s c :
  sampleCallStack ns parentMap td t tds i s = Some c →
  ∃ k target,
    let fullStack := getCallStackUp ns parentMap s defaultMaxDepth in
    fullStack !! k = Some target ∧ f_index target = t ∧
    cs_stack c = rev (take (S k) fullStack) ∧
    dropLast (cs_stack c) = rev (drop 1 (take (S k) fullStack)).
Proof.
  unfold sampleCallStack. destruct (_ && _); [done|].
  pose proof (findIndex_isTarget t (getCallStackUp ns parentMap s defaultMaxDepth)) as Hfind.
  destruct (findIndex _ _) as [k|]; [|done].
  destruct Hfind as (f & Hk & Hidx & _).
  destruct (0 <? _)%nat; [|done]. intros [= <-]. simpl.
  exists k, f. repeat split; try done. apply dropLast_rev.
Qed.

(** C1 (the code at a failing input). In the profile
    root -> A -> B -> C with one sample taken in C, on any call stack with
    room for the two nested activations of the descendant search, the
    rebuilt chain is C, B, A, root and the callers of target B are root,
    A; the frames aggregated into the sample's signature are the single
    frame B, the target itself. *)
Theorem leaf_sample_signature_is_target (stackLimit : nat) :
  (2 ≤ stackLimit)%nat →
  f_index <$> getCallStackUp (nodes leafProfile)
                (buildNodeTree (nodes leafProfile)).1 3 defaultMaxDepth
    = [3; 2; 1; 0] ∧
  ∃ callStacks e,
    buildCallStack stackLimit leafProfile 2 = Some callStacks ∧
    aggregateCallStacks callStacks = [e] ∧
    f_index <$> e_stack e = [2] ∧
    f_function <$> e_stack e = ["B"] ∧
    stackKey (e_stack e) = "B@(native):?".
Proof.
  intros Hroom. split; [by vm_compute|].
  eexists _, _. split.
  { apply (buildCallStack_mono 2); [done|]. vm_compute. reflexivity. }
  split; [by vm_compute|]. by vm_compute.
Qed.

(** C1 (the statement on a call stack with room for 2 activations). *)
Lemma leaf_sample_signature_is_target_witness :
  ∃ callStacks e,
    buildCallStack 2 leafProfile 2 = Some callStacks ∧
    aggregateCallStacks callStacks = [e] ∧
    f_index <$> e_stack e = [2] ∧
    f_function <$> e_stack e = ["B"] ∧
    stackKey (e_stack e) = "B@(native):?".
Proof.
  apply (leaf_sample_signature_is_target 2). lia.
Defined.

(** C2 (counterexample). In the scenario profile the analysis of target
    B does not yield three qualifying samples aggregated under the chain
    root -> A with count 3 and total time 600. *)
Lemma scenario_not_three_samples :
  ¬ ∃ stackLimit callStacks e,
      buildCallStack stackLimit scenarioProfile 2 = Some callStacks ∧
      length callStacks = 3%nat ∧
      aggregateCallStacks callStacks = [e] ∧
      f_function <$> e_stack e = ["root"; "A"] ∧
      e_count e = 3 ∧ e_totalTime e = 600.
Proof.
  intros (stackLimit & callStacks & e & Hrun & Hlen & _).
  destruct (buildCallStack 1 scenarioProfile 2) as [two|] eqn:Htwo;
    [|by vm_compute in Htwo].
  rewrite (buildCallStack_agree _ _ _ _ _ _ Hrun Htwo) in Hlen.
  vm_compute in Htwo. injection Htwo as <-. discriminate Hlen.
Qed.

(** C2 (amended). In the scenario profile root -> A -> B with samples
    [1,2,2] and time deltas [100,200,300], the analysis of target B
    qualifies exactly the two samples taken at node 2 (positions 1 and 2;
    the chain rebuilt from node 1 does not hold B) and yields exactly one
    aggregated entry, with count 2 and total time 500; this on any call
    stack with room for the one activation of the descendant search. *)
Theorem scenario_two_samples (stackLimit : nat) :
  (1 ≤ stackLimit)%nat →
  ∃ callStacks e,
    buildCallStack stackLimit scenarioProfile 2 = Some callStacks ∧
    cs_sampleIndex <$> callStacks = [1; 2]%nat ∧
    aggregateCallStacks callStacks = [e] ∧
    e_count e = 2 ∧ e_totalTime e = 500 ∧ e_samples e = [200; 300].
Proof.
  intros Hroom. eexists _, _. split.
  { apply (buildCallStack_mono 1); [done|]. vm_compute. reflexivity. }
  split; [by vm_compute|]. split; [by vm_compute|]. by vm_compute.
Qed.

(** C2 (the amended statement on a call stack with room for 1
    activation). *)
Lemma scenario_two_samples_witness :
  ∃ callStacks e,
    buildCallStack 1 scenarioProfile 2 = Some callStacks ∧
    cs_sampleIndex <$> callStacks = [1; 2]%nat ∧
    aggregateCallStacks callStacks = [e] ∧
    e_count e = 2 ∧ e_totalTime e = 500 ∧ e_samples e = [200; 300].
Proof.
  apply (scenario_two_samples 1). lia.
Defined.

(** C4 (counterexample). In a recursion of 22 nodes named f, the walk
    from node 21 stops at the depth ceiling and the walk from node 19
    reaches the root; the entry aggregated for the first walk under target
    2 and the entry aggregated for the second under target 0 carry the
    same signature (on a call stack with room for 32 activations of the
    descendant search, more than the 22 nodes need). *)
Lemma truncated_walk_shares_signature :
  let parentMap := (buildNodeTree (nodes recursionProfile)).1 in
  walkEnd parentMap defaultMaxDepth 21 ∅ = EndCeiling ∧
  walkEnd parentMap defaultMaxDepth 19 ∅ = EndRoot ∧
  ∃ callStacks1 callStacks2 e1 e2,
    buildCallStack 32 recursionProfile 2 = Some callStacks1 ∧
    buildCallStack 32 recursionProfile 0 = Some callStacks2 ∧
    e1 ∈ aggregateCallStacks callStacks1 ∧ e_samples e1 = [5] ∧
    e2 ∈ aggregateCallStacks callStacks2 ∧ e_samples e2 = [7] ∧
    stackKey (e_stack e1) = stackKey (e_stack e2).
Proof.
  cbv zeta. split; [by vm_compute|]. split; [by vm_compute|].
  eexists _, _, _, _. split; [by vm_compute|]. split; [by vm_compute|].
  split; [vm_compute; apply list_elem_of_further, list_elem_of_here|].
  split; [done|].
  split; [vm_compute; apply list_elem_of_here|].
  split; [done|]. by vm_compute.
Qed.

(** C4 (the amended statement at a truncated walk). *)
Lemma truncated_walk_is_plain_prefix_witness :
  let ns := nodes recursionProfile in
  let parentMap := (buildNodeTree ns).1 in
  walkEnd parentMap 20 21 ∅ = EndCeiling ∧
  ((∃ path next,
      length path = 20%nat ∧ chainFrom parentMap 21 (path ++ [next]) ∧
      getCallStackUp ns parentMap 21 20 = omap (frameAt ns) path) ∧
   (∀ deeper, (20 ≤ deeper)%nat →
      getCallStackUp ns parentMap 21 20 `prefix_of` getCallStackUp ns parentMap 21 deeper)).
Proof.
  cbv zeta. split; [vm_compute; reflexivity|].
  apply truncated_walk_is_plain_prefix. vm_compute; reflexivity.
Defined.

(** C9 (counterexample). With a table of one node whose children list
    names the id 5, a walk that starts at 5 is not a dead end: it goes on
    to node 0 and returns its frame. *)
Lemma dangling_id_is_walked_past :
  let parentMap := (buildNodeTree danglingNodes).1 in
  ¬ (0 ≤ 5 < Z.of_nat (length danglingNodes)) ∧
  nodeEdge danglingNodes 0 5 ∧
  getCallStackUp danglingNodes parentMap 5 defaultMaxDepth ≠ [] ∧
  f_index <$> getCallStackUp danglingNodes parentMap 5 defaultMaxDepth = [0].
Proof.
  cbv zeta. split; [simpl; lia|]. split.
  - exists O, (plainNode "main" 1 [5] 0). repeat split. apply list_elem_of_here.
  - split; [by vm_compute|by vm_compute].
Qed.

(** C9 (the amended statement at the dangling id). *)
Lemma out_of_range_walk_witness :
  ¬ (0 ≤ 5 < Z.of_nat (length danglingNodes)) ∧
  (∀ f, f ∈ getCallStackUp danglingNodes (buildNodeTree danglingNodes).1 5 20 →
        f_index f ≠ 5).
Proof.
  assert (¬ (0 ≤ 5 < Z.of_nat (length danglingNodes))) as Hout by (simpl; lia).
  split; [exact Hout|].
  exact (proj1 (proj2 (out_of_range_walk danglingNodes 5 20 Hout))).
Defined.

(** C6 (the statement at the leaf of the four-node profile). *)
Lemma getCallStackUp_walk_witness :
  ∃ node rest,
    nodes leafProfile !! Z.to_nat 3 = Some node ∧
    getCallStackUp (nodes leafProfile) (buildNodeTree (nodes leafProfile)).1 3 20
      = mkFrame 3 node :: rest.
Proof.
  apply (getCallStackUp_walk (nodes leafProfile)
           (buildNodeTree (nodes leafProfile)).1 3 20); simpl; lia.
Defined.

(** ** The report *)

Section Report.

Lemma insertEntry_topFirst x l : topFirst l → topFirst (insertEntry x l).
Proof.
  destruct l as [|y l]; simpl.
  - intros _ e ->%list_elem_of_singleton. lia.
  - intros Htop. unfold compareEntries. case_decide as Hcmp; simpl.
    + intros e [->|He]%elem_of_cons; [lia|].
      rewrite insertEntry_perm in He. apply elem_of_cons in He as [->|He].
      * case_decide; lia.
      * apply Htop. apply elem_of_cons. by right.
    + intros e [->|He]%elem_of_cons; [lia|].
      specialize (Htop e He). case_decide; lia.
Qed.

Lemma sortEntries_topFirst l : topFirst (sortEntries l).
Proof.
  induction l as [|x l IH]; simpl; [done|]. by apply insertEntry_topFirst.
Qed.

(** C5 (amended). For every row of the caller report, the percentage
    shown is the entry's sample count divided by the sample count of the
    first-ranked entry, which is the largest count of all aggregated
    entries, times 100. *)
Theorem percentage_is_of_top_count (stackLimit : nat) (profile : Profile)
    (index : Z) (topN : nat)
    (rows : list Row) (row : Row) :
  callerReport stackLimit profile index topN = Some rows →
  row ∈ rows →
  ∃ callStacks top rest,
    buildCallStack stackLimit profile index = Some callStacks ∧
    aggregateCallStacks callStacks = top :: rest ∧
    (∀ e, e ∈ top :: rest → e_count e ≤ e_count top) ∧
    r_percentage row
      = (inject_Z (r_count row) / inject_Z (e_count top) * 100)%Q.
Proof.
  unfold callerReport.
  destruct (buildCallStack stackLimit profile index) as [callStacks|]; [|done].
  case_decide as Hempty.
  { intros [= <-] Hrow. by apply elem_of_nil in Hrow. }
  intros [= <-] (i & e & -> & He)%elem_of_lookup_imap.
  pose proof (sortEntries_topFirst (foldl aggregateStep [] callStacks).*2) as Htop.
  pose proof (aggregateCallStacks_Forall_ok callStacks) as Hok.
  fold (aggregateCallStacks callStacks) in Htop.
  destruct (aggregateCallStacks callStacks) as [|top rest] eqn:Hagg.
  { by rewrite take_nil in He. }
  exists callStacks, top, rest. repeat split; try done.
  inversion_clear Hok as [|? ? (_ & _ & Hpos) _].
  unfold maxCountOf. rewrite decide_False by lia. done.
Qed.

End Report.

(** C5 (counterexample). In the profile root -> A -> B -> C with one
    sample in B and two in C, target B has three qualifying samples in two
    entries; the second row shows 1 / 2 * 100, not 1 / 3 * 100 (on a call
    stack with room for 8 activations of the descendant search). *)
Lemma percentage_not_of_total :
  ∃ rows callStacks row,
    callerReport 8 mixedProfile 2 20 = Some rows ∧
    buildCallStack 8 mixedProfile 2 = Some callStacks ∧
    sumCounts (aggregateCallStacks callStacks) = 3 ∧
    row ∈ rows ∧
    ¬ (r_percentage row
       == inject_Z (r_count row)
          / inject_Z (sumCounts (aggregateCallStacks callStacks)) * 100)%Q.
Proof.
  eexists _, _, _. split; [by vm_compute|]. split; [by vm_compute|].
  split; [by vm_compute|].
  split; [apply list_elem_of_further, list_elem_of_here|].
  vm_compute. discriminate.
Qed.

(** C5 (the amended statement at the second row of that report). *)
Lemma percentage_is_of_top_count_witness :
  ∃ callStacks top rest,
    buildCallStack 8 mixedProfile 2 = Some callStacks ∧
    aggregateCallStacks callStacks = top :: rest ∧
    (∀ e, e ∈ top :: rest → e_count e ≤ e_count top) ∧
    (inject_Z 1 / inject_Z 2 * 100)%Q
      = (inject_Z 1 / inject_Z (e_count top) * 100)%Q.
Proof.
  apply (percentage_is_of_top_count 8 mixedProfile 2 20
           [formatStackEntry
              {| e_stack := [mkFrame 2 (plainNode "B" 1 [3] 2)];
                 e_count := 2; e_totalTime := 50; e_samples := [20; 30] |} 0 2;
            formatStackEntry
              {| e_stack := []; e_count := 1; e_totalTime := 10;
                 e_samples := [10] |} 1 2]
           (formatStackEntry
              {| e_stack := []; e_count := 1; e_totalTime := 10;
                 e_samples := [10] |} 1 2)).
  - vm_compute. reflexivity.
  - apply list_elem_of_further, list_elem_of_here.
Defined.

(** * Further properties of the script *)

(** ** Sorting *)

Section SortBy.

Context {A : Type} (cmp : A → A → Z).

Lemma insertBy_perm x l : insertBy cmp x l ≡ₚ x :: l.
Proof.
  induction l as [|y l IH]; simpl; [done|].
  case_decide; [|done]. rewrite IH. apply Permutation_swap.
Qed.

Lemma sortBy_perm l : sortBy cmp l ≡ₚ l.
Proof.
  induction l as [|x l IH]; simpl; [done|].
  rewrite insertBy_perm. by rewrite IH.
Qed.

Hypothesis cmp_trans : ∀ x y z, cmp x y ≤ 0 → cmp y z ≤ 0 → cmp x z ≤ 0.
Hypothesis cmp_total : ∀ x y, 0 < cmp x y → cmp y x ≤ 0.

Lemma insertBy_sorted x l :
  StronglySorted (λ a b, cmp a b ≤ 0) l →
  StronglySorted (λ a b, cmp a b ≤ 0) (insertBy cmp x l).
Proof.
  induction 1 as [|y l Hl IH Hy]; simpl.
  - repeat constructor.
  - case_decide as Hxy.
    + constructor; [done|]. rewrite insertBy_perm. constructor; [|done].
      by apply cmp_total.
    + constructor; [by constructor|]. constructor; [lia|].
      eapply Forall_impl; [done|]. intros z Hz. simpl in Hz.
      eapply cmp_trans; [|done]. lia.
Qed.

Lemma sortBy_sorted l : StronglySorted (λ a b, cmp a b ≤ 0) (sortBy cmp l).
Proof.
  induction l as [|x l IH]; simpl; [constructor|]. by apply insertBy_sorted.
Qed.

End SortBy.

Lemma StronglySorted_impl {A} (R S : A → A → Prop) (l : list A) :
  (∀ a b, R a b → S a b) → StronglySorted R l → StronglySorted S l.
Proof.
  intros HRS. induction 1 as [|x l Hl IH Hx]; constructor; [done|].
  eapply Forall_impl; [done|]. auto.
Qed.

Lemma sortEntries_sortBy l : sortEntries l = sortBy compareEntries l.
Proof.
  unfold sortEntries, sortBy. induction l as [|x l IH]; simpl; [done|].
  rewrite IH. generalize (foldr (insertBy compareEntries) [] l). intros l'.
  induction l' as [|y l' IH']; simpl; [done|]. by rewrite IH'.
Qed.

(** ** More on the aggregation *)

(** X1. The entries returned by [aggregateCallStacks] are ranked: every
    entry has a larger count than each entry after it, or the same count
    and a total time that is not smaller. *)
Theorem aggregateCallStacks_ranked (callStacks : list CallStack) :
  StronglySorted ranksBefore (aggregateCallStacks callStacks).
Proof.
  unfold aggregateCallStacks. rewrite sortEntries_sortBy.
  eapply StronglySorted_impl; [|apply sortBy_sorted].
  - intros a b. unfold compareEntries, ranksBefore. case_decide; lia.
  - intros x y z. unfold compareEntries. repeat case_decide; lia.
  - intros x y. unfold compareEntries. repeat case_decide; lia.
Qed.

Section Grouping.

Implicit Types (m : list (string * Entry)) (cs : list CallStack).

Lemma assoc_elem_of k e m : assoc k m = Some e → (k, e) ∈ m.
Proof.
  induction m as [|[k' e'] m IH]; simpl; [done|].
  case_decide as Hk.
  - intros [= ->]. subst. apply list_elem_of_here.
  - intros H. apply list_elem_of_further. by apply IH.
Qed.

Lemma elem_of_assoc k e m : NoDup m.*1 → (k, e) ∈ m → assoc k m = Some e.
Proof.
  induction m as [|[k' e'] m IH]; simpl.
  - by intros _ ?%elem_of_nil.
  - intros [Hk' Hnd]%NoDup_cons [[= -> ->]|Hin]%elem_of_cons.
    + by rewrite decide_True.
    + rewrite decide_False; [by apply IH|].
      intros ->. apply Hk'. apply list_elem_of_fmap. by exists (k, e).
Qed.

Lemma record_assoc key callers timeDelta m k :
  assoc k (record key callers timeDelta m)
  = if decide (k = key)
    then Some (bump timeDelta (default (freshEntry callers) (assoc key m)))
    else assoc k m.
Proof.
  induction m as [|[k' e'] m IH]; simpl.
  - repeat case_decide; congruence.
  - destruct (decide (k' = key)) as [->|Hne]; simpl.
    + repeat case_decide; congruence.
    + rewrite IH. repeat case_decide; congruence.
Qed.

Lemma record_keys key callers timeDelta m :
  (record key callers timeDelta m).*1
  = if decide (key ∈ m.*1) then m.*1 else m.*1 ++ [key].
Proof.
  induction m as [|[k' e'] m IH].
  - done.
  - cbn [record]. destruct (decide (k' = key)) as [->|Hne].
    + rewrite !fmap_cons. simpl fst.
      rewrite decide_True; [done|]. apply list_elem_of_here.
    + rewrite !fmap_cons, IH. simpl fst.
      destruct (decide (key ∈ m.*1)) as [Hin|Hout].
      * rewrite decide_True; [done|]. by apply list_elem_of_further.
      * rewrite decide_False; [done|].
        intros [?|?]%elem_of_cons; congruence.
Qed.

Lemma record_keys_NoDup key callers timeDelta m :
  NoDup m.*1 → NoDup (record key callers timeDelta m).*1.
Proof.
  intros Hnd. rewrite record_keys. case_decide as Hin; [done|].
  apply NoDup_app. repeat split; [done| |apply NoDup_singleton].
  intros x Hx ->%list_elem_of_singleton. done.
Qed.

Lemma foldl_aggregateStep_NoDup cs m :
  NoDup m.*1 → NoDup (foldl aggregateStep m cs).*1.
Proof.
  revert m. induction cs as [|c cs IH]; intros m Hm; simpl; [done|].
  apply IH. by apply record_keys_NoDup.
Qed.

(** The entry stored under a key after a run of the loop: the entry that
    was there (or a fresh one with the callers of the first call stack of
    that signature), bumped once per call stack of that signature. *)
Lemma foldl_aggregateStep_assoc cs m k :
  assoc k (foldl aggregateStep m cs)
  = match filter (λ c, signatureOf c = k) cs with
    | [] => assoc k m
    | c :: g =>
        Some (foldl (λ e c', bump (cs_timeDelta c') e)
                (default (freshEntry (dropLast (cs_stack c))) (assoc k m))
                (c :: g))
    end.
Proof.
  revert m. induction cs as [|c cs IH]; intros m; [done|].
  cbn [foldl]. rewrite IH.
  assert (assoc k (aggregateStep m c)
          = if decide (k = signatureOf c)
            then Some (bump (cs_timeDelta c)
                         (default (freshEntry (dropLast (cs_stack c)))
                            (assoc (signatureOf c) m)))
            else assoc k m) as ->
    by (unfold aggregateStep; apply record_assoc).
  destruct (decide (signatureOf c = k)) as [Hk|Hk].
  - rewrite filter_cons_True by done. rewrite decide_True by done. subst k.
    cbn [foldl default].
    by destruct (filter _ cs).
  - rewrite filter_cons_False by done. by rewrite decide_False by done.
Qed.

Lemma foldl_bump_fields (g : list CallStack) (e0 : Entry) :
  let e := foldl (λ e c', bump (cs_timeDelta c') e) e0 g in
  e_stack e = e_stack e0 ∧
  e_samples e = e_samples e0 ++ (cs_timeDelta <$> g) ∧
  e_count e = e_count e0 + Z.of_nat (length g) ∧
  e_totalTime e = e_totalTime e0 + sumZ (cs_timeDelta <$> g).
Proof.
  revert e0. induction g as [|c g IH]; intros e0; cbv zeta.
  - simpl. rewrite app_nil_r. repeat split; try done; lia.
  - cbn [foldl]. destruct (IH (bump (cs_timeDelta c) e0)) as (Hs & Hl & Hc & Ht).
    rewrite Hs, Hl, Hc, Ht. rewrite fmap_cons, sumZ_cons.
    cbn [bump e_stack e_samples e_count e_totalTime length].
    rewrite <-app_assoc. repeat split; try done; lia.
Qed.

Lemma elem_of_aggregateCallStacks cs e :
  e ∈ aggregateCallStacks cs ↔ ∃ k, assoc k (foldl aggregateStep [] cs) = Some e.
Proof.
  unfold aggregateCallStacks. rewrite sortEntries_perm, list_elem_of_fmap.
  assert (NoDup (foldl aggregateStep [] cs).*1) as Hnd.
  { apply foldl_aggregateStep_NoDup. constructor. }
  split.
  - intros ([k e'] & -> & Hin). exists k. by apply elem_of_assoc.
  - intros (k & Hk). exists (k, e). split; [done|]. by apply assoc_elem_of.
Qed.

Lemma assoc_aggregated cs k e :
  assoc k (foldl aggregateStep [] cs) = Some e →
  ∃ c g,
    filter (λ c', signatureOf c' = k) cs = c :: g ∧
    e_stack e = dropLast (cs_stack c) ∧
    e_samples e = cs_timeDelta <$> (c :: g) ∧
    e_count e = Z.of_nat (length (c :: g)) ∧
    e_totalTime e = sumZ (cs_timeDelta <$> (c :: g)).
Proof.
  rewrite foldl_aggregateStep_assoc.
  destruct (filter _ cs) as [|c g] eqn:Hg; [done|].
  intros [= <-]. exists c, g. split; [done|].
  destruct (foldl_bump_fields (c :: g) (freshEntry (dropLast (cs_stack c))))
    as (Hs & Hl & Hc & Ht).
  simpl (assoc _ []). simpl (default _ None).
  cbn [foldl] in Hs, Hl, Hc, Ht. rewrite Hs, Hl, Hc, Ht. simpl. repeat split; try done; lia.
Qed.

Lemma assoc_aggregated_key cs k e :
  assoc k (foldl aggregateStep [] cs) = Some e → stackKey (e_stack e) = k.
Proof.
  intros (c & g & Hg & Hs & _)%assoc_aggregated. rewrite Hs.
  assert (c ∈ filter (λ c', signatureOf c' = k) cs) as Hc
    by (rewrite Hg; apply list_elem_of_here).
  by apply list_elem_of_filter in Hc as [Hc _].
Qed.

(** X2. Every entry returned by [aggregateCallStacks] stands for the call
    stacks that share its signature: these exist, the entry's frames are
    the callers of the first of them, its list of costs is their time
    deltas in input order, its count is their number and its total time
    is the sum of their time deltas. *)
Theorem aggregateCallStacks_groups (callStacks : list CallStack) (e : Entry) :
  e ∈ aggregateCallStacks callStacks →
  ∃ c g,
    filter (λ c', signatureOf c' = stackKey (e_stack e)) callStacks = c :: g ∧
    e_stack e = dropLast (cs_stack c) ∧
    e_samples e = cs_timeDelta <$> (c :: g) ∧
    e_count e = Z.of_nat (length (c :: g)) ∧
    e_totalTime e = sumZ (cs_timeDelta <$> (c :: g)).
Proof.
  intros (k & Hk)%elem_of_aggregateCallStacks.
  rewrite (assoc_aggregated_key _ _ _ Hk). by apply assoc_aggregated.
Qed.

(** X3. [aggregateCallStacks] returns exactly one entry per signature
    that occurs among the call stacks: no two entries have the same
    signature, and a signature has an entry exactly when some call stack
    has it. *)
Theorem aggregateCallStacks_one_per_signature (callStacks : list CallStack) :
  NoDup ((λ e, stackKey (e_stack e)) <$> aggregateCallStacks callStacks) ∧
  ∀ k, k ∈ (λ e, stackKey (e_stack e)) <$> aggregateCallStacks callStacks
       ↔ ∃ c, c ∈ callStacks ∧ signatureOf c = k.
Proof.
  assert (NoDup (foldl aggregateStep [] callStacks).*1) as Hnd.
  { apply foldl_aggregateStep_NoDup. constructor. }
  assert ((λ e, stackKey (e_stack e)) <$> (foldl aggregateStep [] callStacks).*2
          = (foldl aggregateStep [] callStacks).*1) as Hkeys.
  { rewrite <-list_fmap_compose. apply list_fmap_ext.
    intros i [k e] Hi. simpl.
    apply (assoc_aggregated_key callStacks). apply elem_of_assoc; [done|].
    by eapply list_elem_of_lookup_2. }
  assert ((λ e, stackKey (e_stack e)) <$> aggregateCallStacks callStacks
          ≡ₚ (foldl aggregateStep [] callStacks).*1) as Hperm.
  { unfold aggregateCallStacks. by rewrite sortEntries_perm, Hkeys. }
  split; [by rewrite Hperm|].
  intros k. rewrite Hperm. split.
  - intros ([k' e] & -> & Hin)%list_elem_of_fmap. simpl.
    apply elem_of_assoc in Hin; [|done].
    apply assoc_aggregated in Hin as (c & g & Hg & _).
    assert (c ∈ filter (λ c', signatureOf c' = k') callStacks) as Hc
      by (rewrite Hg; apply list_elem_of_here).
    apply list_elem_of_filter in Hc as [Hc Hin]. eauto.
  - intros (c & Hc & Hk).
    destruct (assoc k (foldl aggregateStep [] callStacks)) as [e|] eqn:He.
    + apply list_elem_of_fmap. exists (k, e). split; [done|]. by apply assoc_elem_of.
    + rewrite foldl_aggregateStep_assoc in He.
      destruct (filter _ callStacks) as [|c' g] eqn:Hg; [|done].
      assert (c ∈ filter (λ c', signatureOf c' = k) callStacks) as Hin
        by by apply list_elem_of_filter.
      rewrite Hg in Hin. by apply elem_of_nil in Hin.
Qed.

End Grouping.

Lemma foldl_sum {A} (f : A → Z) (l : list A) (a : Z) :
  foldl (λ sum e, sum + f e) a l = a + sumZ (f <$> l).
Proof.
  revert a. induction l as [|x l IH]; intros a.
  - simpl. lia.
  - cbn [foldl]. rewrite IH, fmap_cons, sumZ_cons. lia.
Qed.

Lemma record_totalTime key callers timeDelta stackMap :
  sumZ (e_totalTime <$> (record key callers timeDelta stackMap).*2)
  = sumZ (e_totalTime <$> stackMap.*2) + timeDelta.
Proof.
  induction stackMap as [|[k e] rest IH]; [simpl; lia|]. cbn [record].
  case_decide; rewrite !fmap_cons, !sumZ_cons; [|rewrite IH]; simpl; lia.
Qed.

Lemma foldl_aggregateStep_totalTime callStacks stackMap :
  sumZ (e_totalTime <$> (foldl aggregateStep stackMap callStacks).*2)
  = sumZ (e_totalTime <$> stackMap.*2) + sumZ (cs_timeDelta <$> callStacks).
Proof.
  revert stackMap. induction callStacks as [|c cs IH]; intros m.
  - simpl. lia.
  - cbn [foldl]. rewrite IH. unfold aggregateStep.
    rewrite record_totalTime, fmap_cons, sumZ_cons. lia.
Qed.

(** X4. The totals printed in the summary of [analyzeProfile] lose
    nothing: the total number of samples is the number of call stacks and
    the total time is the sum of their time deltas, whatever the grouping
    and the ranking. *)
Theorem summary_totals (callStacks : list CallStack) :
  summaryTotalSamples (aggregateCallStacks callStacks)
    = Z.of_nat (length callStacks) ∧
  summaryTotalTime (aggregateCallStacks callStacks)
    = sumZ (cs_timeDelta <$> callStacks).
Proof.
  unfold summaryTotalSamples, summaryTotalTime. rewrite !foldl_sum. split.
  - pose proof (aggregateCallStacks_counts callStacks) as H.
    unfold sumCounts in H. lia.
  - unfold aggregateCallStacks.
    rewrite (sumZ_perm (e_totalTime <$> sortEntries _)
               (e_totalTime <$> (foldl aggregateStep [] callStacks).*2))
      by (by rewrite sortEntries_perm).
    rewrite foldl_aggregateStep_totalTime. simpl. lia.
Qed.

(** ** More on the sample loop *)

Section SampleLoop.

Variable ns : list Node.
Variable parentMap : gmap Z (list Z).
Variable t : Z.
Variable tds : list Z.

Lemma sampleCallStack_any_descendants td td' i s :
  sampleCallStack ns parentMap td t tds i s
  = sampleCallStack ns parentMap td' t tds i s.
Proof.
  unfold sampleCallStack.
  pose proof (findIndex_isTarget t (getCallStackUp ns parentMap s defaultMaxDepth)) as Hfind.
  destruct (existsb _ _) eqn:Hex.
  - by rewrite !andb_false_r.
  - destruct (findIndex _ _) as [k|].
    + destruct Hfind as (f & Hk & Hidx & _).
      assert (existsb (isTarget t) (getCallStackUp ns parentMap s defaultMaxDepth) = true)
        as Htrue; [|congruence].
      apply existsb_isTarget. apply list_elem_of_fmap. exists f. split; [done|].
      by eapply list_elem_of_lookup_2.
    + by repeat destruct (_ && _).
Qed.

Lemma processSamples_any_descendants td td' i ss callStacks :
  processSamples ns parentMap td t tds i ss callStacks
  = processSamples ns parentMap td' t tds i ss callStacks.
Proof.
  revert i callStacks. induction ss as [|s ss IH]; intros i acc; simpl; [done|].
  by rewrite IH, (sampleCallStack_any_descendants td td').
Qed.



End SampleLoop.

(** X5. The set of descendants computed at the head of [buildCallStack]
    has no effect on its result: whenever [buildCallStack] returns, the
    call stacks are those the sample loop yields with any set whatever in
    its place, the empty one included. *)
Theorem buildCallStack_ignores_descendants (stackLimit : nat) (profile : Profile)
    (t : Z) (callStacks : list CallStack) (anySet : gset Z) :
  buildCallStack stackLimit profile t = Some callStacks →
  callStacks
  = processSamples (nodes profile) (buildNodeTree (nodes profile)).1
      anySet t (timeDeltas profile) 0 (samples profile) [].
Proof.
  intros [td ->]%buildCallStack_returned.
  apply processSamples_any_descendants.
Qed.


(** X7. The descendant search of [buildCallStack] returns whenever the
    call stack has room for [recursionBound] nested activations, and the
    set it returns holds the target and, besides it, exactly the ids
    reached from the target by one or more child edges. *)
Theorem findDescendants_closure (stackLimit : nat) (childMap : gmap Z (list Z))
    (t : Z) :
  ((recursionBound childMap ≤ stackLimit)%nat →
   is_Some (findDescendants stackLimit childMap t)) ∧
  ∀ targetDescendants,
    findDescendants stackLimit childMap t = Some targetDescendants →
    ∀ x, x ∈ targetDescendants ↔ x = t ∨ tc (childEdge childMap) t x.
Proof.
  unfold findDescendants. split; [apply collectDescendants_roomy|].
  intros D (Hsub & Hreach & Hkids & Hclosed)%collectDescendants_returned x. split.
  - intros Hx. destruct (decide (x = t)) as [|Hne]; [by left|].
    right. apply Hreach; [done|set_solver].
  - intros [->|Htc]; [set_solver|].
    revert x Htc. apply tc_ind_r; [done|].
    intros y z _ Hyz Hy. destruct (decide (y = t)) as [->|Hne]; [by apply Hkids|].
    eapply Hclosed; [done|set_solver|done].
Qed.

Lemma findDescendants_closure_witness :
  is_Some (findDescendants 4 (buildNodeTree (nodes scenarioProfile)).2 2).
Proof.
  apply (findDescendants_closure 4 (buildNodeTree (nodes scenarioProfile)).2 2).
  vm_compute. lia.
Defined.

Lemma holdingPositions_none ns parentMap t i ss :
  (∀ s, ¬ chainHolds ns parentMap t s) → holdingPositions ns parentMap t i ss = [].
Proof.
  intros Hno. revert i. induction ss as [|s ss IH]; intros i; simpl; [done|].
  rewrite decide_False by apply Hno. apply IH.
Qed.

(** A target outside the table has no children to search. *)
Lemma findDescendants_outside (stackLimit : nat) (ns : list Node) (t : Z) :
  ¬ (0 ≤ t < Z.of_nat (length ns)) → (1 ≤ stackLimit)%nat →
  findDescendants stackLimit (buildNodeTree ns).2 t = Some {[t]}.
Proof.
  intros Hout Hroom. destruct stackLimit as [|d]; [lia|].
  unfold findDescendants. cbn [collectDescendants].
  assert (default [] ((buildNodeTree ns).2 !! t) = []) as ->; [|done].
  apply elem_of_nil_inv. intros c Hc%childEdge_default.
  apply buildNodeTree_childEdge, nodeEdge_inRange in Hc. lia.
Qed.

(** X8. A target index that is not an index of the node table (negative,
    or at or beyond [nodes.length]) is found in no walk: [buildCallStack]
    returns no call stack for it, whatever the samples, on any call stack
    with room for the single activation of the descendant search. *)
Theorem buildCallStack_target_outside (stackLimit : nat) (profile : Profile)
    (t : Z) :
  ¬ (0 ≤ t < Z.of_nat (length (nodes profile))) →
  (1 ≤ stackLimit)%nat →
  buildCallStack stackLimit profile t = Some [].
Proof.
  intros Hout Hroom. unfold buildCallStack.
  pose proof (findDescendants_outside stackLimit (nodes profile) t Hout Hroom) as Hfd.
  destruct (buildNodeTree (nodes profile)) as [parentMap childMap] eqn:Htree.
  simpl in Hfd. rewrite Hfd. f_equal.
  apply (fmap_nil_inv cs_sampleIndex). rewrite processSamples_positions.
  apply holdingPositions_none. intros s. unfold chainHolds.
  rewrite getCallStackUp_path.
  intros (f & -> & (c & _ & Hc)%list_elem_of_omap)%list_elem_of_fmap.
  destruct (frameAt_inRange _ _ _ Hc) as [Hr _].
  rewrite (frameAt_index _ _ _ Hc) in Hout. done.
Qed.

Lemma buildCallStack_target_outside_witness :
  buildCallStack 1 scenarioProfile 7 = Some [].
Proof.
  apply buildCallStack_target_outside; [simpl; lia|lia].
Defined.

(** ** More on the index *)

Section IndexOrder.

Lemma StronglySorted_snoc (l : list Z) (x : Z) :
  StronglySorted Z.le l → Forall (λ y, y ≤ x) l → StronglySorted Z.le (l ++ [x]).
Proof.
  induction 1 as [|y l Hl IH Hy]; intros Hall; simpl.
  - repeat constructor.
  - inversion_clear Hall as [|? ? Hyx Hlx]. constructor; [by apply IH|].
    apply Forall_app. split; [done|]. by constructor.
Qed.

Lemma addEdge_parentsSorted i st c :
  parentsSorted i st.1 → parentsSorted i (addEdge i st c).1.
Proof.
  destruct st as [pm cm]; simpl. intros Hinv c' ps.
  destruct (decide (c' = c)) as [->|Hne].
  - rewrite lookup_insert_eq. intros [= <-].
    destruct (pm !! c) as [old|] eqn:Hold; simpl.
    + destruct (Hinv c old Hold) as [Hs Hb]. split.
      * by apply StronglySorted_snoc.
      * apply Forall_app. split; [done|]. constructor; [lia|constructor].
    + split; repeat constructor. lia.
  - rewrite lookup_insert_ne by done. apply Hinv.
Qed.

Lemma foldl_addEdge_parentsSorted i cs st :
  parentsSorted i st.1 → parentsSorted i (foldl (addEdge i) st cs).1.
Proof.
  revert st. induction cs as [|c cs IH]; intros st Hinv; simpl; [done|].
  apply IH. by apply addEdge_parentsSorted.
Qed.

Lemma parentsSorted_weaken b b' pm : b ≤ b' → parentsSorted b pm → parentsSorted b' pm.
Proof.
  intros Hle Hinv c ps Hc. destruct (Hinv c ps Hc) as [Hs Hb]. split; [done|].
  eapply Forall_impl; [done|]. simpl. lia.
Qed.

Lemma buildNodeTreeFrom_parentsSorted ns k0 st :
  parentsSorted (Z.of_nat k0) st.1 →
  ∃ b, parentsSorted b (buildNodeTreeFrom k0 ns st).1.
Proof.
  revert k0 st. induction ns as [|node ns IH]; intros k0 st Hinv; simpl; [eauto|].
  apply IH. eapply (parentsSorted_weaken (Z.of_nat k0)); [lia|].
  by apply foldl_addEdge_parentsSorted.
Qed.

Lemma firstParent_least ns c p i :
  firstParent (buildNodeTree ns).1 c = Some p → nodeEdge ns i c → p ≤ i.
Proof.
  intros Hp (ps & Hps & Hin)%buildNodeTree_parentEdge.
  destruct (buildNodeTreeFrom_parentsSorted ns 0 (∅, ∅)) as [b Hinv].
  { intros c' ps'. simpl. by rewrite lookup_empty. }
  fold (buildNodeTree ns) in Hinv. destruct (Hinv c ps Hps) as [Hs _].
  unfold firstParent in Hp. rewrite Hps in Hp.
  destruct ps as [|q ps]; [done|]. injection Hp as ->.
  apply elem_of_cons in Hin as [->|Hin]; [lia|].
  inversion_clear Hs as [|? ? _ Hall]. rewrite Forall_forall in Hall. by apply Hall.
Qed.

(** X9. The parent that the ancestor walk follows from an id, the first
    one recorded by [buildNodeTree], is a node that lists the id among its
    children, and it is the one with the smallest index among the nodes
    that do. *)
Theorem firstParent_is_least_lister (ns : list Node) (c p : Z) :
  firstParent (buildNodeTree ns).1 c = Some p →
  nodeEdge ns p c ∧ ∀ i, nodeEdge ns i c → p ≤ i.
Proof.
  intros Hp. split; [by apply firstParent_nodeEdge|].
  intros i. by apply firstParent_least.
Qed.

Lemma firstParent_is_least_lister_witness :
  nodeEdge (nodes scenarioProfile) 1 2 ∧ ∀ i, nodeEdge (nodes scenarioProfile) i 2 → 1 ≤ i.
Proof.
  apply firstParent_is_least_lister. vm_compute. reflexivity.
Defined.

End IndexOrder.

(** ** More on the ancestor walk *)

Section BuiltWalk.

Variable ns : list Node.

Local Notation "'pm'" := (buildNodeTree ns).1.

Lemma walkPath_inRange remaining current visited :
  0 ≤ current < Z.of_nat (length ns) →
  Forall (λ c, 0 ≤ c < Z.of_nat (length ns)) (walkPath pm remaining current visited).
Proof.
  revert current visited.
  induction remaining as [|r IH]; intros current visited Hrange; simpl.
  - constructor.
  - case_decide; [|constructor]. constructor; [done|].
    destruct (pm !! current) as [[|parent ps]|] eqn:Hp; try constructor.
    apply IH. eapply nodeEdge_inRange, firstParent_nodeEdge.
    unfold firstParent. by rewrite Hp.
Qed.

Lemma omap_frameAt_inRange (path : list Z) :
  Forall (λ c, 0 ≤ c < Z.of_nat (length ns)) path →
  f_index <$> omap (frameAt ns) path = path.
Proof.
  induction 1 as [|c path Hc Hpath IH]; [done|]. cbn [omap list_omap].
  unfold frameAt at 1. rewrite decide_True by done.
  destruct (lookup_lt_is_Some_2 ns (Z.to_nat c)) as [node ->]; [lia|].
  cbn [fmap option_fmap option_map]. by rewrite fmap_cons, IH.
Qed.

Lemma chainFrom_consecutive parentMap c (path : list Z) i x y :
  chainFrom parentMap c path →
  path !! i = Some x → path !! S i = Some y → firstParent parentMap x = Some y.
Proof.
  intros Hchain. revert i. induction Hchain as [c|c|c p path Hp Hchain IH]; intros i.
  - done.
  - by destruct i.
  - destruct i as [|i]; simpl.
    + intros [= <-]. inversion Hchain; simplify_eq; simpl; by intros [= <-].
    + apply IH.
Qed.

Lemma getCallStackUp_indices s maxDepth :
  0 ≤ s < Z.of_nat (length ns) →
  f_index <$> getCallStackUp ns pm s maxDepth = walkPath pm maxDepth s ∅.
Proof.
  intros Hs. rewrite getCallStackUp_path. by apply omap_frameAt_inRange, walkPath_inRange.
Qed.

(** X10. In a walk from a node of the table, over the index built from
    that table, every frame but the first is a caller of the frame before
    it: its node lists the node of the frame before among its children,
    and it is the lowest-indexed node that does. *)
Theorem getCallStackUp_steps_to_callers (s : Z) (maxDepth i : nat) (f g : Frame) :
  0 ≤ s < Z.of_nat (length ns) →
  getCallStackUp ns pm s maxDepth !! i = Some f →
  getCallStackUp ns pm s maxDepth !! S i = Some g →
  nodeEdge ns (f_index g) (f_index f) ∧
  ∀ p, nodeEdge ns p (f_index f) → f_index g ≤ p.
Proof.
  intros Hs Hf Hg.
  assert (firstParent pm (f_index f) = Some (f_index g)) as Hp.
  { eapply (chainFrom_consecutive pm s (walkPath pm maxDepth s ∅) i).
    - apply walkPath_chain.
    - rewrite <-getCallStackUp_indices by done. by rewrite list_lookup_fmap, Hf.
    - rewrite <-getCallStackUp_indices by done. by rewrite list_lookup_fmap, Hg. }
  split; [by apply firstParent_nodeEdge|].
  intros p. by apply firstParent_least.
Qed.

Lemma walkPath_last parentMap remaining current visited :
  (0 < remaining)%nat → 0 ≤ current → current ∉ visited →
  ∃ path outer,
    walkPath parentMap remaining current visited = path ++ [outer] ∧
    (length (path ++ [outer]) = remaining
     ∨ firstParent parentMap outer = None
     ∨ ∃ p, firstParent parentMap outer = Some p
            ∧ (p < 0 ∨ p ∈ visited ∨ p ∈ path ++ [outer])).
Proof.
  revert current visited.
  induction remaining as [|r IH]; intros current visited Hr Hpos Hfresh; [lia|].
  cbn [walkPath]. rewrite decide_True by done.
  destruct (parentMap !! current) as [[|parent ps]|] eqn:Hp.
  1,3: exists [], current; split; [done|]; right; left;
       unfold firstParent; by rewrite Hp.
  assert (firstParent parentMap current = Some parent) as Hfp
    by (unfold firstParent; by rewrite Hp).
  destruct r as [|r].
  { exists [], current. split; [done|]. by left. }
  destruct (decide (0 ≤ parent ∧ parent ∉ {[current]} ∪ visited)) as [[Hpp Hpf]|Hstop].
  - destruct (IH parent ({[current]} ∪ visited)) as (path & outer & Heq & Hend);
      [lia|done|done|].
    exists (current :: path), outer. rewrite Heq. split; [done|].
    destruct Hend as [Hlen|[Hnone|(p & Hpo & Hwhere)]].
    + left. simpl. by rewrite Hlen.
    + by right; left.
    + right; right. exists p. split; [done|].
      destruct Hwhere as [?|[Hin|Hin]]; [by left| |].
      * apply elem_of_union in Hin as [->%elem_of_singleton|Hin].
        -- right; right. apply list_elem_of_here.
        -- by right; left.
      * right; right. by apply list_elem_of_further.
  - exists [], current. split.
    + cbn [walkPath]. by rewrite decide_False.
    + right; right. exists parent. split; [done|].
      destruct (decide (parent < 0)) as [|Hnn]; [by left|].
      destruct (decide (parent ∈ visited)) as [|Hnv]; [by right; left|].
      right; right. simpl. apply list_elem_of_singleton.
      destruct (decide (parent = current)) as [|Hne]; [done|].
      destruct Hstop. split; [lia|set_solver].
Qed.

(** X11. A walk from a node of the table with a positive depth ceiling
    returns at least one frame, and it stops for one of three reasons that
    can be read off its result: it has [maxDepth] frames; or no node lists
    the node of its outermost frame as a child (a root was reached); or
    the caller that would come next is already among its frames (a cycle
    was met). *)
Theorem getCallStackUp_outermost (s : Z) (maxDepth : nat) :
  0 ≤ s < Z.of_nat (length ns) → (0 < maxDepth)%nat →
  ∃ frames outer,
    getCallStackUp ns pm s maxDepth = frames ++ [outer] ∧
    (length (frames ++ [outer]) = maxDepth
     ∨ (∀ i, ¬ nodeEdge ns i (f_index outer))
     ∨ ∃ p, firstParent pm (f_index outer) = Some p
            ∧ p ∈ f_index <$> (frames ++ [outer])).
Proof.
  intros Hs Hd.
  destruct (walkPath_last pm maxDepth s ∅) as (path & r & Heq & Hend);
    [done|lia|set_solver|].
  pose proof (getCallStackUp_indices s maxDepth Hs) as Hidx. rewrite Heq in Hidx.
  remember (getCallStackUp ns pm s maxDepth) as stack eqn:Hstack. clear Hstack.
  induction stack as [|x l _] using rev_ind.
  { by destruct path. }
  rewrite fmap_app in Hidx. simpl in Hidx.
  apply app_inj_tail in Hidx as [Hfs Hf0].
  exists l, x. split; [done|].
  destruct Hend as [Hlen|[Hnone|(p & Hp & Hwhere)]].
  - left. rewrite <-Hlen, !length_app, <-Hfs, length_fmap. done.
  - right; left. intros i Hi. rewrite Hf0 in Hi.
    destruct (nodeEdge_firstParent _ _ _ Hi) as [q Hq]. congruence.
  - right; right. exists p. rewrite Hf0. split; [done|].
    rewrite fmap_app. simpl. rewrite Hfs, Hf0.
    destruct Hwhere as [Hneg|[Hv|Hin]]; [|set_solver|done].
    pose proof (nodeEdge_inRange _ _ _ (firstParent_nodeEdge _ _ _ Hp)). lia.
Qed.

End BuiltWalk.

Lemma getCallStackUp_steps_to_callers_witness :
  nodeEdge (nodes leafProfile) 2 3 ∧ ∀ p, nodeEdge (nodes leafProfile) p 3 → 2 ≤ p.
Proof.
  apply (getCallStackUp_steps_to_callers (nodes leafProfile) 3 20 0
           (mkFrame 3 (plainNode "C" 1 [] 3)) (mkFrame 2 (plainNode "B" 1 [3] 2))).
  - simpl. lia.
  - vm_compute. reflexivity.
  - vm_compute. reflexivity.
Defined.

Lemma getCallStackUp_outermost_witness :
  ∃ frames outer,
    getCallStackUp (nodes leafProfile) (buildNodeTree (nodes leafProfile)).1 3 20
      = frames ++ [outer] ∧
    (length (frames ++ [outer]) = 20%nat
     ∨ (∀ i, ¬ nodeEdge (nodes leafProfile) i (f_index outer))
     ∨ ∃ p, firstParent (buildNodeTree (nodes leafProfile)).1 (f_index outer) = Some p
            ∧ p ∈ f_index <$> (frames ++ [outer])).
Proof.
  apply getCallStackUp_outermost; simpl; lia.
Defined.

(** ** The child map, entry by entry *)

Section ChildMapEntries.

Lemma foldl_addEdge_childMap i cs st i' :
  (foldl (addEdge i) st cs).2 !! i'
  = if decide (i' = i)
    then match cs with
         | [] => st.2 !! i
         | _ :: _ => Some (default [] (st.2 !! i) ++ cs)
         end
    else st.2 !! i'.
Proof.
  revert st. induction cs as [|c cs IH]; intros st.
  - simpl. by case_decide; subst.
  - cbn [foldl]. rewrite IH. destruct st as [pm cm]. cbn [addEdge snd].
    case_decide as Hi; [|by rewrite lookup_insert_ne].
    rewrite lookup_insert_eq. destruct cs; [done|].
    simpl. by rewrite <-app_assoc.
Qed.

Lemma buildNodeTreeFrom_childMap_other ns k0 st i' :
  (∀ j, (j < length ns)%nat → i' ≠ Z.of_nat (k0 + j)) →
  (buildNodeTreeFrom k0 ns st).2 !! i' = st.2 !! i'.
Proof.
  revert k0 st. induction ns as [|node ns IH]; intros k0 st Hother; [done|].
  cbn [buildNodeTreeFrom]. rewrite IH.
  - rewrite foldl_addEdge_childMap. rewrite decide_False; [done|].
    specialize (Hother O). simpl in Hother. rewrite Nat.add_0_r in Hother.
    apply Hother. lia.
  - intros j Hj. specialize (Hother (S j)). simpl in Hother.
    rewrite Nat.add_succ_r in Hother. apply Hother. lia.
Qed.

Lemma buildNodeTreeFrom_childMap ns k0 st j node :
  (∀ i, (k0 ≤ i)%nat → st.2 !! Z.of_nat i = None) →
  ns !! j = Some node →
  (buildNodeTreeFrom k0 ns st).2 !! Z.of_nat (k0 + j)
  = if decide (children node = []) then None else Some (children node).
Proof.
  revert k0 st j. induction ns as [|node0 ns IH]; intros k0 st j Hfree Hj; [done|].
  cbn [buildNodeTreeFrom]. destruct j as [|j]; simpl in Hj.
  - injection Hj as ->. rewrite Nat.add_0_r.
    rewrite buildNodeTreeFrom_childMap_other by (intros; lia).
    rewrite foldl_addEdge_childMap, decide_True by done.
    rewrite (Hfree k0) by lia.
    destruct (children node); [done|]. by rewrite decide_False.
  - replace (k0 + S j)%nat with (S k0 + j)%nat by lia. apply IH; [|done].
    intros i Hi. rewrite foldl_addEdge_childMap, decide_False by lia.
    apply Hfree. lia.
Qed.

(** X12. [childMap] keeps every children list as it is written: for a
    node with children, the entry at its index is its children list, in
    the same order and with the same repetitions; a node without children
    has no entry, and neither has any key that is not an index of the
    table.  So [childMap.get(i) || []] is the children list of node [i]. *)
Theorem childMap_entries (ns : list Node) :
  (∀ k node, ns !! k = Some node →
     (buildNodeTree ns).2 !! Z.of_nat k
       = (if decide (children node = []) then None else Some (children node)) ∧
     default [] ((buildNodeTree ns).2 !! Z.of_nat k) = children node) ∧
  (∀ i, (∀ k, (k < length ns)%nat → i ≠ Z.of_nat k) →
     (buildNodeTree ns).2 !! i = None).
Proof.
  split.
  - intros k node Hk.
    pose proof (buildNodeTreeFrom_childMap ns 0 (∅, ∅) k node) as H.
    simpl in H. unfold buildNodeTree. rewrite H; [|by intros; apply lookup_empty|done].
    split; [done|]. by case_decide as Hc; [rewrite Hc|].
  - intros i Hi. unfold buildNodeTree.
    rewrite buildNodeTreeFrom_childMap_other by done. apply lookup_empty.
Qed.

End ChildMapEntries.

(** ** More on the report *)

Lemma percentage_bounds (c m : Z) :
  1 ≤ c → c ≤ m →
  (0 < inject_Z c / inject_Z m * 100 ∧ inject_Z c / inject_Z m * 100 <= 100)%Q.
Proof.
  intros Hc Hm. destruct m as [|m|m]; [lia| |lia].
  destruct c as [|c|c]; [lia| |lia].
  unfold Qlt, Qle, Qdiv, Qmult, Qinv, inject_Z. simpl. lia.
Qed.

Lemma percentage_top (m : Z) : 1 ≤ m → (inject_Z m / inject_Z m * 100 == 100)%Q.
Proof.
  intros Hm. destruct m as [|m|m]; [lia| |lia].
  unfold Qeq, Qdiv, Qmult, Qinv, inject_Z. simpl. lia.
Qed.

(** X13. A caller report has [min(topN, number of entries)] rows, in the
    order of the ranking and numbered from 1.  The percentage of the first
    row is 100 and every percentage is above 0 and at most 100. *)
Theorem callerReport_rows (stackLimit : nat) (profile : Profile) (index : Z)
    (topN : nat)
    (rows : list Row) :
  callerReport stackLimit profile index topN = Some rows →
  ∃ callStacks,
    buildCallStack stackLimit profile index = Some callStacks ∧
    length rows = (topN `min` length (aggregateCallStacks callStacks))%nat ∧
    (∀ i row, rows !! i = Some row →
       r_position row = S i ∧
       (∃ e, aggregateCallStacks callStacks !! i = Some e ∧
             r_count row = e_count e ∧ r_stack row = e_stack e) ∧
       (0 < r_percentage row ∧ r_percentage row <= 100)%Q ∧
       (i = O → r_percentage row == 100)%Q).
Proof.
  unfold callerReport.
  destruct (buildCallStack stackLimit profile index) as [callStacks|]; [|done].
  intros Hrows. exists callStacks. split; [done|].
  pose proof (aggregateCallStacks_Forall_ok callStacks) as Hok.
  pose proof (sortEntries_topFirst (foldl aggregateStep [] callStacks).*2) as Htop.
  fold (aggregateCallStacks callStacks) in Htop.
  case_decide as Hempty.
  { injection Hrows as <-. apply nil_length_inv in Hempty. subst. split; [simpl; lia|].
    by intros i row. }
  injection Hrows as <-. split.
  { rewrite length_imap, length_take. lia. }
  intros i row (e & He & ->)%list_lookup_imap_Some.
  apply lookup_take_Some in He as [He Hi].
  assert (e ∈ aggregateCallStacks callStacks) as Hin by by eapply list_elem_of_lookup_2.
  destruct (aggregateCallStacks callStacks) as [|top rest] eqn:Hagg; [done|].
  simpl in Htop. unfold maxCountOf.
  rewrite Forall_forall in Hok.
  destruct (Hok top) as (_ & _ & Htop1); [apply list_elem_of_here|].
  destruct (Hok e Hin) as (_ & _ & He1).
  rewrite decide_False by lia. simpl. repeat split.
  - eauto.
  - by apply percentage_bounds; [|apply Htop].
  - by apply percentage_bounds; [|apply Htop].
  - intros ->. simpl in He. injection He as ->. by apply percentage_top.
Qed.

Lemma callerReport_rows_witness :
  ∃ callStacks,
    buildCallStack 8 mixedProfile 2 = Some callStacks ∧
    length
      [formatStackEntry
         {| e_stack := [mkFrame 2 (plainNode "B" 1 [3] 2)];
            e_count := 2; e_totalTime := 50; e_samples := [20; 30] |} 0 2;
       formatStackEntry
         {| e_stack := []; e_count := 1; e_totalTime := 10;
            e_samples := [10] |} 1 2]
      = (20 `min` length (aggregateCallStacks callStacks))%nat.
Proof.
  destruct (callerReport_rows 8 mixedProfile 2 20
              [formatStackEntry
                 {| e_stack := [mkFrame 2 (plainNode "B" 1 [3] 2)];
                    e_count := 2; e_totalTime := 50; e_samples := [20; 30] |} 0 2;
               formatStackEntry
                 {| e_stack := []; e_count := 1; e_totalTime := 10;
                    e_samples := [10] |} 1 2])
    as (callStacks & Hrun & Hlen & _).
  - vm_compute. reflexivity.
  - exists callStacks. split; [exact Hrun|exact Hlen].
Defined.

(** ** Short file names *)

Lemma string_app_nil_l (s : string) : "" +:+ s = s.
Proof. reflexivity. Qed.

Lemma string_app_cons (c : ascii) (s t : string) :
  String c s +:+ t = String c (s +:+ t).
Proof. reflexivity. Qed.

Lemma string_app_nil_r (s : string) : s +:+ "" = s.
Proof.
  induction s as [|c s IH]; [done|]. by rewrite string_app_cons, IH.
Qed.

Lemma string_app_assoc (a b c : string) : (a +:+ b) +:+ c = a +:+ (b +:+ c).
Proof.
  induction a as [|x a IH]; [done|]. by rewrite !string_app_cons, IH.
Qed.

Lemma hasSlash_app (a b : string) : hasSlash (a +:+ b) = hasSlash a || hasSlash b.
Proof.
  induction a as [|x a IH]; [done|].
  rewrite string_app_cons. simpl. by rewrite IH, orb_assoc.
Qed.

Lemma lastSegment_no_slash s acc :
  hasSlash s = false → lastSegment acc s = acc +:+ s.
Proof.
  revert acc. induction s as [|c s IH]; intros acc; simpl.
  - intros _. by rewrite string_app_nil_r.
  - destruct (Ascii.eqb c "/"); [done|]. simpl. intros Hs.
    rewrite IH by done. by rewrite string_app_assoc.
Qed.

Lemma lastSegment_dir dir name acc :
  hasSlash name = false → lastSegment acc (dir +:+ "/" +:+ name) = name.
Proof.
  intros Hname. revert acc. induction dir as [|c dir IH]; intros acc.
  - rewrite string_app_nil_l, string_app_cons, string_app_nil_l. simpl.
    by rewrite lastSegment_no_slash.
  - rewrite string_app_cons. simpl. destruct (Ascii.eqb c "/"); apply IH.
Qed.

Lemma lastSegment_hasSlash s acc :
  hasSlash acc = false → hasSlash (lastSegment acc s) = false.
Proof.
  revert acc. induction s as [|c s IH]; intros acc Hacc; simpl; [done|].
  destruct (Ascii.eqb c "/") eqn:Hc; [by apply IH|]. apply IH.
  rewrite hasSlash_app, Hacc. simpl. by rewrite Hc.
Qed.

(** X14. The short file name used in a signature, [url.split('/').pop()],
    is the text after the last slash of the url: it holds no slash, it is
    [name] for a url [dir/name] whose [name] holds no slash (the empty text
    for a url that ends in a slash), and it is the url itself when the url
    holds no slash; an empty url gives [(native)]. *)
Theorem urlShort_basename :
  urlShort "" = "(native)" ∧
  (∀ u, u ≠ "" → hasSlash (urlShort u) = false) ∧
  (∀ dir name, hasSlash name = false → urlShort (dir +:+ "/" +:+ name) = name) ∧
  (∀ u, u ≠ "" → hasSlash u = false → urlShort u = u).
Proof.
  repeat split.
  - intros u Hu. unfold urlShort. rewrite decide_False by done.
    by apply lastSegment_hasSlash.
  - intros dir name Hname. unfold urlShort. rewrite decide_False.
    + by apply lastSegment_dir.
    + destruct dir; [rewrite string_app_nil_l|]; by rewrite string_app_cons.
  - intros u Hu Hs. unfold urlShort. rewrite decide_False by done.
    by rewrite lastSegment_no_slash.
Qed.

(** ** Finding the target nodes *)

Lemma startsWith_spec s sub : startsWith s sub = true ↔ ∃ post, s = sub +:+ post.
Proof.
  revert s. induction sub as [|c sub IH]; intros s.
  - destruct s; simpl; (split; [intros _; by eexists|done]).
  - destruct s as [|d s]; simpl.
    + split; [done|]. intros [post H]. by rewrite string_app_cons in H.
    + rewrite andb_true_iff, IH. split.
      * intros [Hc%Ascii.eqb_eq [post ->]]. subst. exists post.
        by rewrite string_app_cons.
      * intros [post H]. rewrite string_app_cons in H. injection H as -> ->.
        split; [apply Ascii.eqb_refl|eauto].
Qed.

Lemma includes_spec s sub : includes s sub = true ↔ occursIn sub s.
Proof.
  unfold occursIn. induction s as [|d s IH]; cbn [includes].
  - rewrite orb_false_r, startsWith_spec. split.
    + intros [post ->]. by exists "", post.
    + intros ([|? ?] & post & Heq).
      * rewrite string_app_nil_l in Heq. eauto.
      * by rewrite string_app_cons in Heq.
  - rewrite orb_true_iff, startsWith_spec, IH. split.
    + intros [[post ->]|(pre & post & ->)].
      * by exists "", post.
      * exists (String d pre), post. by rewrite string_app_cons.
    + intros ([|c pre] & post & Heq).
      * left. rewrite string_app_nil_l in Heq. eauto.
      * right. rewrite string_app_cons in Heq. injection Heq as -> ->. eauto.
Qed.

Lemma matchesTarget_spec fn fp node :
  matchesTarget fn fp node = true
  ↔ (fn = "" ∨ occursIn fn (functionName (callFrame node))) ∧
    (fp = "" ∨ occursIn fp (url (callFrame node))) ∧
    0 < hitCount node.
Proof.
  unfold matchesTarget.
  rewrite !andb_true_iff, !orb_true_iff, !bool_decide_eq_true, !includes_spec.
  split.
  - intros [[[[?|Heq]|?] ?] ?]; repeat split; auto.
    right. exists "", "". by rewrite string_app_nil_l, string_app_nil_r.
  - intros ([?|?] & ? & ?); auto.
Qed.

Lemma findTargetNodesFrom_app fn fp i ns acc :
  findTargetNodesFrom fn fp i ns acc = acc ++ findTargetNodesFrom fn fp i ns [].
Proof.
  revert i acc. induction ns as [|node ns IH]; intros i acc; simpl.
  - by rewrite app_nil_r.
  - rewrite IH. rewrite (IH _ (if matchesTarget fn fp node then [_] else [])).
    destruct (matchesTarget fn fp node); simpl; by rewrite ?app_nil_r, <-?app_assoc.
Qed.

Lemma findTargetNodesFrom_spec fn fp i ns tn :
  tn ∈ findTargetNodesFrom fn fp i ns []
  ↔ ∃ k node, ns !! k = Some node ∧ tn = targetOf (i + k) node ∧
              matchesTarget fn fp node = true.
Proof.
  revert i. induction ns as [|node ns IH]; intros i; simpl.
  - split; [by intros ?%elem_of_nil|]. by intros (k & ? & ? & _).
  - rewrite findTargetNodesFrom_app, elem_of_app, IH. split.
    + intros [Hin|(k & node' & Hk & -> & Hm)].
      * destruct (matchesTarget fn fp node) eqn:Hm; [|by apply elem_of_nil in Hin].
        apply list_elem_of_singleton in Hin as ->.
        exists O, node. rewrite Nat.add_0_r. done.
      * exists (S k), node'. rewrite Nat.add_succ_r. done.
    + intros ([|k] & node' & Hk & -> & Hm); simpl in Hk.
      * left. injection Hk as ->. rewrite Hm, Nat.add_0_r.
        by apply list_elem_of_singleton.
      * right. exists k, node'. rewrite Nat.add_succ_r. done.
Qed.

Lemma findTargetNodesFrom_indices fn fp i ns :
  StronglySorted Z.lt (tn_index <$> findTargetNodesFrom fn fp i ns []) ∧
  Forall (λ x, Z.of_nat i ≤ x) (tn_index <$> findTargetNodesFrom fn fp i ns []).
Proof.
  revert i. induction ns as [|node ns IH]; intros i; simpl.
  - split; constructor.
  - rewrite findTargetNodesFrom_app. destruct (IH (S i)) as [Hs Hb].
    assert (Forall (λ x, Z.of_nat i < x)
              (tn_index <$> findTargetNodesFrom fn fp (S i) ns [])) as Hlt.
    { eapply Forall_impl; [done|]. simpl. lia. }
    destruct (matchesTarget fn fp node); simpl.
    + split; constructor; simpl; try done; try lia.
      eapply Forall_impl; [exact Hlt|]. simpl. lia.
    + split; [done|]. eapply Forall_impl; [exact Hlt|]. simpl. lia.
Qed.

Lemma StronglySorted_lt_NoDup (l : list Z) : StronglySorted Z.lt l → NoDup l.
Proof.
  induction 1 as [|x l Hl IH Hx]; constructor; [|done].
  intros Hin. rewrite Forall_forall in Hx. specialize (Hx x Hin). lia.
Qed.

(** X15. [findTargetNodes] returns, once each, exactly the nodes with a
    positive hit count whose function name holds the function filter and
    whose url holds the file filter as a substring, a filter that is empty
    or [null] accepting every node; each comes with its index in the node
    table, its call frame and its hit count. *)
Theorem findTargetNodes_matches (profile : Profile) (fn fp : string) :
  NoDup (tn_index <$> findTargetNodes profile fn fp) ∧
  ∀ tn, tn ∈ findTargetNodes profile fn fp
        ↔ ∃ k node,
            nodes profile !! k = Some node ∧ tn = targetOf k node ∧
            0 < hitCount node ∧
            (fn = "" ∨ occursIn fn (functionName (callFrame node))) ∧
            (fp = "" ∨ occursIn fp (url (callFrame node))).
Proof.
  unfold findTargetNodes. split.
  - rewrite sortBy_perm. apply StronglySorted_lt_NoDup.
    apply findTargetNodesFrom_indices.
  - intros tn. rewrite sortBy_perm, findTargetNodesFrom_spec.
    setoid_rewrite matchesTarget_spec. simpl. naive_solver.
Qed.

(** X16. [findTargetNodes] returns the targets by decreasing hit count. *)
Theorem findTargetNodes_ranked (profile : Profile) (fn fp : string) :
  StronglySorted (λ a b, tn_hitCount b ≤ tn_hitCount a)
    (findTargetNodes profile fn fp).
Proof.
  unfold findTargetNodes.
  eapply StronglySorted_impl; [|apply sortBy_sorted]; simpl; intros; lia.
Qed.

(** ** The fallback list of top functions *)

Lemma StronglySorted_take {A} (R : A → A → Prop) (l : list A) (n : nat) :
  StronglySorted R l → StronglySorted R (take n l).
Proof.
  intros Hs. revert n. induction Hs as [|x l Hl IH Hx]; intros [|n]; simpl;
    try constructor; [apply IH|].
  rewrite Forall_forall in Hx |- *. intros y Hy%elem_of_take.
  destruct Hy as (i & Hi & _). apply Hx. by eapply list_elem_of_lookup_2.
Qed.

Lemma elem_of_drop_inv {A} (l : list A) (n : nat) (y : A) :
  y ∈ drop n l → y ∈ l ∧ (n < length l)%nat.
Proof.
  intros [i Hi]%list_elem_of_lookup. rewrite lookup_drop in Hi. split.
  - by eapply list_elem_of_lookup_2.
  - apply lookup_lt_Some in Hi. lia.
Qed.

(** In a sorted list, what lies beyond the first [n] elements is ranked
    after each of them. *)
Lemma StronglySorted_beyond {A} (R : A → A → Prop) (l : list A) (n : nat) x y :
  StronglySorted R l → x ∈ take n l → y ∈ drop n l → R x y.
Proof.
  intros Hs. revert n. induction Hs as [|z l Hl IH Hz]; intros n.
  - rewrite take_nil. by intros ?%elem_of_nil.
  - destruct n as [|n]; simpl; [by intros ?%elem_of_nil|].
    intros [->|Hx]%elem_of_cons Hy; [|by eapply IH].
    rewrite Forall_forall in Hz. apply Hz.
    by apply elem_of_drop_inv in Hy as [Hy _].
Qed.

(** X17. Without a function filter, [main] lists at most 10 nodes, all
    with a positive hit count, by decreasing hit count; a node with a
    positive hit count that is not listed has a hit count no larger than
    that of any listed node, and the list is then full. *)
Theorem topFunctions_top (profile : Profile) :
  (length (topFunctions profile) ≤ 10)%nat ∧
  StronglySorted (λ a b, tf_hitCount b ≤ tf_hitCount a) (topFunctions profile) ∧
  (∀ tf, tf ∈ topFunctions profile →
     0 < tf_hitCount tf ∧
     ∃ k node, nodes profile !! k = Some node ∧ tf_index tf = Z.of_nat k ∧
               tf_callFrame tf = callFrame node ∧ tf_hitCount tf = hitCount node) ∧
  (∀ k node, nodes profile !! k = Some node → 0 < hitCount node →
     (∃ tf, tf ∈ topFunctions profile ∧ tf_index tf = Z.of_nat k)
     ∨ (length (topFunctions profile) = 10%nat ∧
        ∀ tf, tf ∈ topFunctions profile → hitCount node ≤ tf_hitCount tf)).
Proof.
  unfold topFunctions.
  set (mk := λ (i : nat) (node : Node),
               {| tf_index := Z.of_nat i; tf_callFrame := callFrame node;
                  tf_hitCount := hitCount node |}).
  set (cands := filter (λ n, 0 < tf_hitCount n) (imap mk (nodes profile))).
  set (cmp := λ a b : TopFunction, tf_hitCount b - tf_hitCount a).
  assert (StronglySorted (λ a b, tf_hitCount b ≤ tf_hitCount a) (sortBy cmp cands))
    as Hsorted.
  { eapply StronglySorted_impl; [|apply sortBy_sorted]; subst cmp; simpl; intros; lia. }
  assert (∀ tf, tf ∈ sortBy cmp cands
                ↔ 0 < tf_hitCount tf ∧ ∃ k node, nodes profile !! k = Some node
                                                 ∧ tf = mk k node) as Hmem.
  { intros tf. rewrite sortBy_perm. subst cands.
    rewrite list_elem_of_filter, elem_of_lookup_imap. naive_solver. }
  split; [|split; [|split]].
  - rewrite length_take. lia.
  - by apply StronglySorted_take.
  - intros tf (i & Hi & _)%elem_of_take.
    apply list_elem_of_lookup_2, Hmem in Hi as (Hpos & k & node & Hk & ->).
    split; [done|]. by exists k, node.
  - intros k node Hk Hpos.
    assert (mk k node ∈ sortBy cmp cands) as Hin by (apply Hmem; eauto).
    rewrite <-(take_drop 10 (sortBy cmp cands)) in Hin.
    apply elem_of_app in Hin as [Hin|Hin]; [left; eauto|]. right. split.
    + apply elem_of_drop_inv in Hin as [_ Hlen].
      rewrite length_take. lia.
    + intros tf Htf.
      apply (StronglySorted_beyond _ _ 10 tf (mk k node) Hsorted Htf Hin).
Qed.

(** ** The callee analysis *)

Section Callees.

Lemma countSample_keys s (m : list (Z * Z)) :
  (countSample s m).*1 = if decide (s ∈ m.*1) then m.*1 else m.*1 ++ [s].
Proof.
  induction m as [|[k n] m IH]; [done|].
  cbn [countSample]. destruct (decide (k = s)) as [->|Hne].
  - rewrite !fmap_cons. simpl fst.
    rewrite decide_True; [done|]. apply list_elem_of_here.
  - rewrite !fmap_cons, IH. simpl fst.
    destruct (decide (s ∈ m.*1)) as [Hin|Hout].
    + rewrite decide_True; [done|]. by apply list_elem_of_further.
    + rewrite decide_False; [done|]. intros [?|?]%elem_of_cons; congruence.
Qed.

Lemma countSample_countOf s (m : list (Z * Z)) k :
  countOf k (countSample s m)
  = if decide (k = s) then countOf s m + 1 else countOf k m.
Proof.
  induction m as [|[k' n] m IH]; simpl.
  - repeat case_decide; subst; first [done|lia|congruence].
  - destruct (decide (k' = s)) as [->|Hne]; simpl.
    + repeat case_decide; subst; first [done|lia|congruence].
    + rewrite IH. repeat case_decide; subst; first [done|lia|congruence].
Qed.

Lemma elem_of_countOf (m : list (Z * Z)) k n :
  NoDup m.*1 → (k, n) ∈ m ↔ k ∈ m.*1 ∧ n = countOf k m.
Proof.
  induction m as [|[k' n'] m IH].
  - intros _. simpl. split; [by intros ?%elem_of_nil|].
    intros [H _]. by apply elem_of_nil in H.
  - rewrite fmap_cons. simpl fst. intros [Hk' Hnd]%NoDup_cons.
    cbn [countOf]. rewrite !elem_of_cons, (IH Hnd).
    destruct (decide (k' = k)) as [->|Hne].
    + split.
      * intros [Heq|[Hin _]]; [|done]. injection Heq as ->. auto.
      * intros [_ ->]. by left.
    + split.
      * intros [Heq|[Hin ->]]; [|auto]. by injection Heq as -> ->.
      * intros [[->|Hin] ->]; [done|]. right. auto.
Qed.

Variable descendants : gset Z.

Local Notation "'step'" :=
  (λ (descendantCounts : list (Z * Z)) (s : Z),
     if decide (s ∈ descendants) then countSample s descendantCounts
     else descendantCounts).

Lemma occurrences_cons s ss k :
  occurrences k (s :: ss) = (if decide (s = k) then 1 else 0) + occurrences k ss.
Proof.
  unfold occurrences. case_decide.
  - rewrite filter_cons_True by done. simpl length. lia.
  - rewrite filter_cons_False by done. lia.
Qed.

Lemma foldl_step_countOf ss (m : list (Z * Z)) k :
  countOf k (foldl step m ss)
  = countOf k m + (if decide (k ∈ descendants) then occurrences k ss else 0).
Proof.
  revert m. induction ss as [|s ss IH]; intros m.
  - simpl. unfold occurrences. simpl. case_decide; lia.
  - cbn [foldl]. rewrite IH, occurrences_cons. cbn beta.
    destruct (decide (s ∈ descendants)) as [Hs|Hs].
    + rewrite countSample_countOf. repeat case_decide; subst; try done; lia.
    + repeat case_decide; subst; try done; lia.
Qed.

Lemma foldl_step_keys ss (m : list (Z * Z)) k :
  k ∈ (foldl step m ss).*1 ↔ k ∈ m.*1 ∨ (k ∈ descendants ∧ k ∈ ss).
Proof.
  revert m. induction ss as [|s ss IH]; intros m.
  - simpl. split; [by left|]. intros [?|[_ ?%elem_of_nil]]; done.
  - cbn [foldl]. rewrite IH, elem_of_cons. cbn beta.
    destruct (decide (s ∈ descendants)) as [Hs|Hs].
    + rewrite countSample_keys. case_decide.
      * naive_solver.
      * rewrite elem_of_app, list_elem_of_singleton. naive_solver.
    + naive_solver.
Qed.

Lemma foldl_step_NoDup ss (m : list (Z * Z)) :
  NoDup m.*1 → NoDup (foldl step m ss).*1.
Proof.
  revert m. induction ss as [|s ss IH]; intros m Hm; [done|].
  cbn [foldl]. apply IH. cbn beta.
  case_decide; [|done]. rewrite countSample_keys. case_decide as Hin; [done|].
  apply NoDup_app. repeat split; [done| |apply NoDup_singleton].
  intros x Hx ->%list_elem_of_singleton. done.
Qed.

Lemma occurrences_pos k ss : k ∈ ss → 1 ≤ occurrences k ss.
Proof.
  induction ss as [|s ss IH]; [by intros ?%elem_of_nil|].
  rewrite occurrences_cons. intros [->|Hin]%elem_of_cons.
  - rewrite decide_True by done. unfold occurrences. lia.
  - specialize (IH Hin). case_decide; lia.
Qed.

(** The table of counts: one pair per descendant id that is sampled,
    with the number of its samples. *)
Lemma countDescendantSamples_spec ss :
  NoDup (countDescendantSamples descendants ss).*1 ∧
  ∀ k n, (k, n) ∈ countDescendantSamples descendants ss
         ↔ k ∈ descendants ∧ k ∈ ss ∧ n = occurrences k ss.
Proof.
  unfold countDescendantSamples.
  assert (NoDup (foldl step [] ss).*1) as Hnd
    by (apply foldl_step_NoDup; constructor).
  split; [done|]. intros k n.
  rewrite (elem_of_countOf _ _ _ Hnd), foldl_step_keys, foldl_step_countOf.
  simpl. split.
  - intros [[?%elem_of_nil|[Hd Hs]] ->]; [done|]. by rewrite decide_True.
  - intros (Hd & Hs & ->). split; [by right|]. by rewrite decide_True.
Qed.

End Callees.

Lemma nodeAt_None ns k : nodeAt ns k = None ↔ ¬ (0 ≤ k < Z.of_nat (length ns)).
Proof.
  unfold nodeAt. case_decide as Hk.
  - rewrite lookup_ge_None. lia.
  - split; [lia|done].
Qed.

Lemma tc_impl {A} (R S : relation A) x y :
  (∀ a b, R a b → S a b) → tc R x y → tc S x y.
Proof.
  intros HRS. induction 1 as [x y Hxy|x y z Hxy _ IH].
  - by apply tc_once, HRS.
  - eapply tc_l; [by apply HRS|done].
Qed.

Lemma analyzeChildren_roomy (stackLimit : nat) (profile : Profile) (t : Z)
    (topN : option Z) :
  (recursionBound (buildNodeTree (nodes profile)).2 ≤ stackLimit)%nat →
  is_Some (analyzeChildren stackLimit profile t topN).
Proof.
  unfold analyzeChildren, analyzeChildrenDescendants. intros Hroom.
  by destruct (collectDescendants_roomy _ stackLimit t ∅ Hroom) as [D ->].
Qed.

Lemma analyzeChildren_returned (stackLimit : nat) (profile : Profile) (t : Z)
    (topN : option Z) (out : Outcome (list ChildRow)) :
  analyzeChildren stackLimit profile t topN = Some out →
  ∃ descendants,
    (∀ x, x ∈ descendants ↔ tc (nodeEdge (nodes profile)) t x) ∧
    out = topDescendants (nodes profile) (samples profile) descendants topN.
Proof.
  unfold analyzeChildren, analyzeChildrenDescendants.
  set (cm := (buildNodeTree (nodes profile)).2).
  destruct (collectDescendants stackLimit cm t ∅) as [D|] eqn:Hrun; [|done].
  intros [= <-]. exists D. split; [|done]. intros x.
  apply collectDescendants_returned in Hrun.
  rewrite (searched_from_empty cm t D Hrun). subst cm.
  split; apply tc_impl; intros a b; apply buildNodeTree_childEdge.
Qed.

(** X18. [analyzeChildren] gets through its descendant search whenever
    the call stack has room for [recursionBound] nested activations.  Once
    through, it throws (reading [callFrame] of an undefined node) exactly
    when some sample is taken at a descendant id of the target that is not
    an index of the node table; in every other case it returns. *)
Theorem analyzeChildren_throws (stackLimit : nat) (profile : Profile) (t : Z)
    (topN : option Z) :
  ((recursionBound (buildNodeTree (nodes profile)).2 ≤ stackLimit)%nat →
   is_Some (analyzeChildren stackLimit profile t topN)) ∧
  ∀ out,
    analyzeChildren stackLimit profile t topN = Some out →
    (out = Threw
     ↔ ∃ s, s ∈ samples profile ∧ tc (nodeEdge (nodes profile)) t s ∧
            ¬ (0 ≤ s < Z.of_nat (length (nodes profile)))) ∧
    (out ≠ Threw → ∃ rows, out = Returned rows).
Proof.
  split; [apply analyzeChildren_roomy|].
  intros out (D & HD & ->)%analyzeChildren_returned.
  unfold topDescendants.
  destruct (countDescendantSamples_spec D (samples profile)) as [_ Hcounts].
  destruct (mapM _ _) as [rows|] eqn:Hmap.
  - split; [|eauto]. split; [done|].
    intros (s & Hs & Hts & Hout). exfalso.
    apply mapM_Some_1 in Hmap.
    assert ((s, occurrences s (samples profile))
            ∈ countDescendantSamples D (samples profile)) as Hin.
    { apply Hcounts. by rewrite HD. }
    apply list_elem_of_lookup in Hin as [i Hi].
    destruct (Forall2_lookup_l _ _ _ _ _ Hmap Hi) as (row & _ & Hrow).
    unfold childRow in Hrow. simpl in Hrow.
    apply nodeAt_None in Hout. by rewrite Hout in Hrow.
  - split; [|done]. split; [|done]. intros _.
    apply mapM_None_1, Exists_exists in Hmap as ([k n] & Hin & Hrow).
    apply Hcounts in Hin as (Hd & Hs & _).
    exists k. split; [done|]. split; [by apply HD|].
    apply nodeAt_None. unfold childRow in Hrow. simpl in Hrow.
    by destruct (nodeAt (nodes profile) k).
Qed.

Lemma childRows_of (ns : list Node) (counts : list (Z * Z)) (rows : list ChildRow) :
  mapM (childRow ns) counts = Some rows →
  c_index <$> rows = counts.*1 ∧
  ∀ row, row ∈ rows →
    (c_index row, c_sampleCount row) ∈ counts ∧
    ∃ node, nodeAt ns (c_index row) = Some node ∧
            c_function row = orElse (functionName (callFrame node)) "(anonymous)" ∧
            c_url row = url (callFrame node) ∧
            c_line row = lineNumber (callFrame node) ∧
            c_hitCount row = hitCount node.
Proof.
  intros Hmap%mapM_Some_1. induction Hmap as [|[k n] row counts rows Hrow _ IH].
  - split; [done|]. by intros ? ?%elem_of_nil.
  - destruct IH as [IHk IHr]. unfold childRow in Hrow. simpl in Hrow.
    destruct (nodeAt ns k) as [node|] eqn:Hnode; [|done]. injection Hrow as <-.
    split; [by rewrite !fmap_cons, IHk|].
    intros row [->|Hin]%elem_of_cons.
    + simpl. split; [apply list_elem_of_here|]. by exists node.
    + destruct (IHr row Hin) as [Hc Hn]. split; [by apply list_elem_of_further|done].
Qed.

(** The full ranking of which [analyzeChildren] returns the front part:
    one valid row per descendant of the target at which a sample was
    taken, by decreasing sample count. *)
Lemma analyzeChildren_ranking (stackLimit : nat) (profile : Profile) (t : Z)
    (topN : option Z) (rows : list ChildRow) :
  analyzeChildren stackLimit profile t topN = Some (Returned rows) →
  ∃ allRows,
    rows = sliceTo topN allRows ∧
    StronglySorted (λ a b, c_sampleCount b ≤ c_sampleCount a) allRows ∧
    NoDup (c_index <$> allRows) ∧
    (∀ s, s ∈ c_index <$> allRows
          ↔ s ∈ samples profile ∧ tc (nodeEdge (nodes profile)) t s) ∧
    ∀ row, row ∈ allRows →
      c_sampleCount row = occurrences (c_index row) (samples profile) ∧
      1 ≤ c_sampleCount row ∧
      ∃ node, nodeAt (nodes profile) (c_index row) = Some node ∧
              c_function row = orElse (functionName (callFrame node)) "(anonymous)" ∧
              c_url row = url (callFrame node) ∧
              c_line row = lineNumber (callFrame node) ∧
              c_hitCount row = hitCount node.
Proof.
  intros (D & HD & Hout)%analyzeChildren_returned. unfold topDescendants in Hout.
  destruct (countDescendantSamples_spec D (samples profile)) as [Hnd Hcounts].
  destruct (mapM _ _) as [allRows|] eqn:Hmap; [|done].
  destruct (childRows_of _ _ _ Hmap) as [Hkeys Hrows].
  set (cmp := λ a b : ChildRow, c_sampleCount b - c_sampleCount a) in *.
  injection Hout as ->. exists (sortBy cmp allRows). split; [done|].
  split.
  { eapply StronglySorted_impl; [|apply sortBy_sorted]; subst cmp; simpl; intros; lia. }
  split; [by rewrite sortBy_perm, Hkeys|].
  split.
  - intros s. rewrite sortBy_perm, Hkeys, list_elem_of_fmap. split.
    + intros ([k n] & -> & (Hd & Hs & _)%Hcounts). simpl. by rewrite <-HD.
    + intros [Hs Hts]. exists (s, occurrences s (samples profile)).
      split; [done|]. apply Hcounts. by rewrite HD.
  - intros row Hrow. rewrite sortBy_perm in Hrow.
    destruct (Hrows row Hrow) as [Hin Hnode].
    apply Hcounts in Hin as (Hd & Hs & Hn).
    split; [done|]. split; [rewrite Hn; by apply occurrences_pos|done].
Qed.

(** X19. When [analyzeChildren] returns, its rows are for distinct
    nodes, by decreasing sample count; each row is a descendant of the
    target that is a node of the table, with that node's name, url, line
    and hit count, and its sample count is the number of samples taken at
    exactly that node, which is at least 1.  There are at most [topN] rows
    when [topN] is a number that is not negative, and none when it is
    [NaN]. *)
Theorem analyzeChildren_rows (stackLimit : nat) (profile : Profile) (t : Z)
    (topN : option Z) (rows : list ChildRow) :
  analyzeChildren stackLimit profile t topN = Some (Returned rows) →
  StronglySorted (λ a b, c_sampleCount b ≤ c_sampleCount a) rows ∧
  NoDup (c_index <$> rows) ∧
  (∀ row, row ∈ rows →
     tc (nodeEdge (nodes profile)) t (c_index row) ∧
     c_sampleCount row = occurrences (c_index row) (samples profile) ∧
     1 ≤ c_sampleCount row ∧
     ∃ node, nodeAt (nodes profile) (c_index row) = Some node ∧
             c_function row = orElse (functionName (callFrame node)) "(anonymous)" ∧
             c_url row = url (callFrame node) ∧
             c_line row = lineNumber (callFrame node) ∧
             c_hitCount row = hitCount node) ∧
  (∀ n, topN = Some n → 0 ≤ n → (length rows ≤ Z.to_nat n)%nat) ∧
  (topN = None → rows = []).
Proof.
  intros (allRows & -> & Hsorted & Hnd & Hidx & Hvalid)%analyzeChildren_ranking.
  unfold sliceTo. set (k := sliceEnd topN (length allRows)).
  split; [by apply StronglySorted_take|]. split; [|split; [|split]].
  - rewrite fmap_take. rewrite <-(take_drop k (c_index <$> allRows)) in Hnd.
    by apply NoDup_app in Hnd as [? _].
  - intros row (i & Hi & _)%elem_of_take. apply list_elem_of_lookup_2 in Hi.
    split; [|by apply Hvalid].
    apply (Hidx (c_index row)). by apply list_elem_of_fmap_2.
  - intros n -> Hn. subst k. simpl. rewrite decide_False by lia.
    rewrite length_take. lia.
  - intros ->. done.
Qed.

(** X20. When [analyzeChildren] returns, its rows are the front part
    [slice(0, topN)] of a ranking that holds one row for every descendant
    of the target at which a sample was taken (a negative [topN] cuts that
    many rows from its end).  Such a descendant is therefore among the rows
    or outranked by every row, and if it is missing for a [topN] that is
    not negative, there are exactly [topN] rows. *)
Theorem analyzeChildren_top (stackLimit : nat) (profile : Profile) (t : Z)
    (topN : option Z) (rows : list ChildRow) :
  analyzeChildren stackLimit profile t topN = Some (Returned rows) →
  ∃ allRows,
    rows = sliceTo topN allRows ∧
    NoDup (c_index <$> allRows) ∧
    (∀ s, s ∈ c_index <$> allRows
          ↔ s ∈ samples profile ∧ tc (nodeEdge (nodes profile)) t s) ∧
    ∀ s, s ∈ samples profile → tc (nodeEdge (nodes profile)) t s →
      (∃ row, row ∈ rows ∧ c_index row = s)
      ∨ ((∀ row, row ∈ rows → occurrences s (samples profile) ≤ c_sampleCount row) ∧
         (∀ n, topN = Some n → 0 ≤ n → length rows = Z.to_nat n)).
Proof.
  intros (allRows & -> & Hsorted & Hnd & Hidx & Hvalid)%analyzeChildren_ranking.
  exists allRows. split; [done|]. split; [done|]. split; [done|].
  intros s Hs Hts. unfold sliceTo. set (k := sliceEnd topN (length allRows)).
  assert (s ∈ c_index <$> allRows) as Hin by by apply Hidx.
  apply list_elem_of_fmap in Hin as (row & -> & Hin).
  rewrite <-(take_drop k allRows) in Hin.
  apply elem_of_app in Hin as [Hin|Hin]; [left; eauto|]. right. split.
  - intros row' Hrow'.
    assert (c_sampleCount row = occurrences (c_index row) (samples profile)) as <-.
    { apply elem_of_drop_inv in Hin as [Hin _]. by apply Hvalid. }
    apply (StronglySorted_beyond _ _ k row' row Hsorted Hrow' Hin).
  - intros n Htop Hn. apply elem_of_drop_inv in Hin as [_ Hlen].
    rewrite length_take. subst k topN. simpl in *.
    rewrite decide_False in * by lia. lia.
Qed.

(** ** The command line *)

Section CommandLine.

Variable parseInt : string → option Z.

Lemma follows_here flag value pre post :
  follows flag value (pre ++ flag :: value :: post).
Proof. by exists pre, post. Qed.

Lemma parseFlags_two arg value rest options :
  parseFlags parseInt (arg :: value :: rest) options
  = if decide (arg = "--function" ∧ value ≠ "") then
      parseFlags parseInt rest {| o_function := Some value;
                                  o_file := o_file options;
                                  o_top := o_top options |}
    else if decide (arg = "--file" ∧ value ≠ "") then
      parseFlags parseInt rest {| o_function := o_function options;
                                  o_file := Some value;
                                  o_top := o_top options |}
    else if decide (arg = "--top" ∧ value ≠ "") then
      parseFlags parseInt rest {| o_function := o_function options;
                                  o_file := o_file options;
                                  o_top := parseInt value |}
    else if decide (arg = "--help" ∨ arg = "-h") then inl 0
    else parseFlags parseInt (value :: rest) options.
Proof. reflexivity. Qed.

Lemma parseFlags_fromFlags n suffix pre options :
  (length suffix ≤ n)%nat →
  fromFlags parseInt (pre ++ suffix) options →
  match parseFlags parseInt suffix options with
  | inl code => code = 0 ∧ ∃ a, a ∈ suffix ∧ isHelp a
  | inr options' => fromFlags parseInt (pre ++ suffix) options'
  end.
Proof.
  revert suffix pre options.
  induction n as [|n IH]; intros suffix pre options Hlen Hfrom.
  { destruct suffix; [done|simpl in Hlen; lia]. }
  destruct suffix as [|arg [|value rest]]; [done| |].
  - cbn [parseFlags]. destruct (decide (isHelp arg)) as [Hh|Hh].
    + unfold isHelp in Hh. rewrite decide_True by done.
      split; [done|]. exists arg. split; [apply list_elem_of_here|done].
    + unfold isHelp in Hh. by rewrite decide_False by done.
  - rewrite parseFlags_two. simpl in Hlen.
    destruct Hfrom as (Hfn & Hfile & Htop).
    assert (pre ++ arg :: value :: rest = (pre ++ [arg; value]) ++ rest) as Hsplit
      by by rewrite <-app_assoc.
    assert (pre ++ arg :: value :: rest = (pre ++ [arg]) ++ value :: rest) as Hsplit1
      by by rewrite <-app_assoc.
    assert (∀ options',
              fromFlags parseInt (pre ++ arg :: value :: rest) options' →
              match parseFlags parseInt rest options' with
              | inl code => code = 0 ∧ ∃ a, a ∈ arg :: value :: rest ∧ isHelp a
              | inr o => fromFlags parseInt (pre ++ arg :: value :: rest) o
              end) as Hskip.
    { intros options' Hfrom'. rewrite Hsplit in Hfrom' |- *.
      specialize (IH rest (pre ++ [arg; value]) options').
      destruct (parseFlags parseInt rest options'); [|apply IH; [lia|done]].
      destruct IH as (-> & a & Ha & Hhelp); [lia|done|].
      split; [done|]. exists a. split; [|done].
      by do 2 apply list_elem_of_further. }
    destruct (decide (arg = "--function" ∧ value ≠ "")) as [[-> Hv]|_].
    { apply Hskip. split; [|done].
      right. exists value. repeat split; try done. apply follows_here. }
    destruct (decide (arg = "--file" ∧ value ≠ "")) as [[-> Hv]|_].
    { apply Hskip. split; [done|]. split; [|done].
      right. exists value. repeat split; try done. apply follows_here. }
    destruct (decide (arg = "--top" ∧ value ≠ "")) as [[-> Hv]|_].
    { apply Hskip. split; [done|]. split; [done|].
      right. exists value. repeat split; try done. apply follows_here. }
    destruct (decide (arg = "--help" ∨ arg = "-h")) as [Hh|_].
    + split; [done|]. exists arg. split; [apply list_elem_of_here|done].
    + specialize (IH (value :: rest) (pre ++ [arg]) options).
      rewrite Hsplit1.
      destruct (parseFlags parseInt (value :: rest) options).
      * destruct IH as (-> & a & Ha & Hhelp); [simpl; lia|by rewrite <-Hsplit1|].
        split; [done|]. exists a. split; [|done]. by apply list_elem_of_further.
      * apply IH; [simpl; lia|by rewrite <-Hsplit1].
Qed.

(** X21. [parseArgs] exits with code 0 only if some argument after the
    first is [--help] or [-h], and with code 1 only if the first argument
    is absent or empty.  When it returns, the profile file is the first
    argument, which is not empty, and every option is either its default
    ([null], [null], 20) or was read from a flag [--function], [--file] or
    [--top] and the argument right after it, which is never the empty
    string. *)
Theorem parseArgs_outcome (args : list string) :
  match parseArgs parseInt args with
  | Exit code =>
      (code = 0 ∧ ∃ a, a ∈ drop 1 args ∧ isHelp a)
      ∨ (code = 1 ∧ (args = [] ∨ ∃ rest, args = "" :: rest))
  | Args profileFile options =>
      profileFile ≠ "" ∧
      ∃ rest, args = profileFile :: rest ∧ fromFlags parseInt rest options
  end.
Proof.
  unfold parseArgs.
  pose proof (parseFlags_fromFlags (length (drop 1 args)) (drop 1 args) []
                defaultOptions) as Hflags.
  simpl app in Hflags.
  destruct (parseFlags parseInt (drop 1 args) defaultOptions) as [code|options].
  - left. apply Hflags; [done|]. repeat split; by left.
  - case_decide as Hfile.
    + right. split; [done|]. destruct args as [|a rest]; [by left|].
      right. exists rest. by subst.
    + destruct args as [|a rest]; [done|]. split; [done|].
      exists rest. split; [done|]. apply Hflags; [done|]. repeat split; by left.
Qed.

End CommandLine.

(** ** Statements at the example profiles *)

Lemma aggregateCallStacks_groups_witness :
  ∃ c g,
    filter (λ c', signatureOf c' = "")
      [{| cs_stack := [mkFrame 2 (plainNode "B" 3 [] 2)]; cs_timeDelta := 200;
          cs_sampleIndex := 1 |};
       {| cs_stack := [mkFrame 2 (plainNode "B" 3 [] 2)]; cs_timeDelta := 300;
          cs_sampleIndex := 2 |}] = c :: g ∧
    @nil Frame = dropLast (cs_stack c) ∧
    [200; 300] = cs_timeDelta <$> (c :: g) ∧
    2 = Z.of_nat (length (c :: g)) ∧
    500 = sumZ (cs_timeDelta <$> (c :: g)).
Proof.
  apply (aggregateCallStacks_groups
           [{| cs_stack := [mkFrame 2 (plainNode "B" 3 [] 2)]; cs_timeDelta := 200;
               cs_sampleIndex := 1 |};
            {| cs_stack := [mkFrame 2 (plainNode "B" 3 [] 2)]; cs_timeDelta := 300;
               cs_sampleIndex := 2 |}]
           {| e_stack := []; e_count := 2; e_totalTime := 500;
              e_samples := [200; 300] |}).
  vm_compute. apply list_elem_of_here.
Defined.


Lemma buildCallStack_ignores_descendants_witness :
  [{| cs_stack := [mkFrame 2 (plainNode "B" 1 [3] 2);
                   mkFrame 3 (plainNode "C" 1 [] 3)];
      cs_timeDelta := 100; cs_sampleIndex := 0 |}]
  = processSamples (nodes leafProfile) (buildNodeTree (nodes leafProfile)).1
      ∅ 2 (timeDeltas leafProfile) 0 (samples leafProfile) [].
Proof.
  apply (buildCallStack_ignores_descendants 2 leafProfile 2).
  vm_compute. reflexivity.
Defined.

Lemma analyzeChildren_rows_witness :
  StronglySorted (λ a b, c_sampleCount b ≤ c_sampleCount a)
    [{| c_index := 3; c_function := "C"; c_url := ""; c_line := 0;
        c_hitCount := 2; c_sampleCount := 2 |}].
Proof.
  apply (analyzeChildren_rows 4 mixedProfile 1 (Some (-1))
           [{| c_index := 3; c_function := "C"; c_url := ""; c_line := 0;
               c_hitCount := 2; c_sampleCount := 2 |}]).
  vm_compute. reflexivity.
Defined.

Lemma analyzeChildren_top_witness :
  ∃ allRows,
    [{| c_index := 3; c_function := "C"; c_url := ""; c_line := 0;
        c_hitCount := 2; c_sampleCount := 2 |}] = sliceTo (Some (-1)) allRows ∧
    NoDup (c_index <$> allRows).
Proof.
  destruct (analyzeChildren_top 4 mixedProfile 1 (Some (-1))
              [{| c_index := 3; c_function := "C"; c_url := ""; c_line := 0;
                  c_hitCount := 2; c_sampleCount := 2 |}])
    as (allRows & Hrows & Hnd & _).
  - vm_compute. reflexivity.
  - exists allRows. split; [exact Hrows|exact Hnd].
Defined.

Lemma analyzeChildren_throws_witness :
  is_Some (analyzeChildren 8 mixedProfile 2 (Some 20)).
Proof.
  apply (analyzeChildren_throws 8 mixedProfile 2 (Some 20)).
  vm_compute. lia.
Defined.
